(** * Rare: session manager and storefront data models

    A shallow embedding of [rare/app.py] and
    [rare/components/tabs/shop/shop_models.py].

    Python values are embedded as the inductive [pyval]; Python exceptions
    as the error monad [result]; the backend library, the filesystem and
    the clock, which the sources only call, are interfaces (type classes)
    the definitions are parametric in.  A [str] is embedded as the
    [string] of its characters, which covers the code points below 256;
    the case conversions are those of [str] on ASCII strings only. *)

From Stdlib Require Import ZArith List String Ascii Bool Lia DecimalString.
Import ListNotations.
Set Warnings "-register-all".
Open Scope string_scope.

(* ================================================================== *)
(** * Python runtime values and the operations the sources use *)
(* ================================================================== *)

Module Py.

(** The exceptions the modelled code can raise. *)
Inductive exn : Type :=
| KeyError
| TypeError
| AttributeError
| IndexError
| ValueError
| OverflowError
| ConnectionError
| OtherError.

Inductive result (A : Type) : Type :=
| Ok (a : A)
| Raise (e : exn).
Arguments Ok {A} a.
Arguments Raise {A} e.

Definition bind {A B} (m : result A) (k : A -> result B) : result B :=
  match m with
  | Ok a => k a
  | Raise e => Raise e
  end.

(** [try: m  except KeyError: h] *)
Definition except_KeyError {A} (m : result A) (h : result A) : result A :=
  match m with
  | Raise KeyError => h
  | _ => m
  end.

(** A JSON document as the [json] module loads it (numbers are integers
    here; no claim reads a number). *)
Inductive pyval : Type :=
| PNone
| PBool (b : bool)
| PInt (z : Z)
| PStr (s : string)
| PList (l : list pyval)
| PDict (d : list (string * pyval)).

(** ** str *)

Definition is_upper (c : ascii) : bool :=
  let n := N_of_ascii c in (65 <=? n)%N && (n <=? 90)%N.
Definition is_lower (c : ascii) : bool :=
  let n := N_of_ascii c in (97 <=? n)%N && (n <=? 122)%N.
Definition to_upper (c : ascii) : ascii :=
  if is_lower c then ascii_of_N (N_of_ascii c - 32) else c.
Definition to_lower (c : ascii) : ascii :=
  if is_upper c then ascii_of_N (N_of_ascii c + 32) else c.

Fixpoint str_map (f : ascii -> ascii) (s : string) : string :=
  match s with
  | EmptyString => EmptyString
  | String c r => String (f c) (str_map f r)
  end.

(** [s.isascii()]: every character is below 128 *)
Fixpoint isascii (s : string) : bool :=
  match s with
  | EmptyString => true
  | String c r => (N_of_ascii c <? 128)%N && isascii r
  end.

(** [s.upper()], [s.lower()], [s.capitalize()] of the strings [isascii]
    holds of, where a case conversion maps a letter of [a-z] or [A-Z] to
    its other case and keeps every other character.  On other strings
    [str] follows the Unicode tables, which can even change the length
    (one character may become two); these definitions do not. *)
Definition upper (s : string) : string := str_map to_upper s.
Definition lower (s : string) : string := str_map to_lower s.
Definition capitalize (s : string) : string :=
  match s with
  | EmptyString => EmptyString
  | String c r => String (to_upper c) (lower r)
  end.

(** [s.startswith(p)] *)
Definition startswith (s p : string) : bool := String.prefix p s.

(** [s.endswith("/")], for one character *)
Fixpoint ends_with_char (c : ascii) (s : string) : bool :=
  match s with
  | EmptyString => false
  | String a EmptyString => Ascii.eqb a c
  | String _ r => ends_with_char c r
  end.

(** [s.lstrip(c)] for a one-character set: every leading [c] goes. *)
Fixpoint lstrip_char (c : ascii) (s : string) : string :=
  match s with
  | String a r => if Ascii.eqb a c then lstrip_char c r else s
  | EmptyString => EmptyString
  end.

(** [s[:-1]] *)
Fixpoint drop_last (s : string) : string :=
  match s with
  | EmptyString => EmptyString
  | String _ EmptyString => EmptyString
  | String c r => String c (drop_last r)
  end.

(** [s[n:]] *)
Fixpoint drop (n : nat) (s : string) : string :=
  match n, s with
  | O, _ => s
  | S k, String _ r => drop k r
  | S _, EmptyString => EmptyString
  end.

(** What is left of [s] after a prefix [p]: [s[len(p):]] *)
Definition remainder (p s : string) : string := drop (String.length p) s.

(** The scan of [s.replace(old, new)] for a non-empty [old]: leftmost
    occurrences, not overlapping.  [skip] counts the characters of a
    matched occurrence still to pass over. *)
Fixpoint replace_scan (old new : string) (skip : nat) (s : string) : string :=
  match s with
  | EmptyString => EmptyString
  | String c r =>
      match skip with
      | S k => replace_scan old new k r
      | O => if String.prefix old s
             then new ++ replace_scan old new (String.length old - 1) r
             else String c (replace_scan old new 0 r)
      end
  end.

(** With an empty [old], Python puts [new] before every character and at
    the end. *)
Fixpoint interleave (new s : string) : string :=
  match s with
  | EmptyString => new
  | String c r => new ++ String c (interleave new r)
  end.

(** [s.replace(old, new)] *)
Definition replace (old new s : string) : string :=
  match old with
  | EmptyString => interleave new s
  | _ => replace_scan old new 0 s
  end.

(** [str(n)] for a natural number and [s.zfill(w)] for a string of digits *)
Definition str_of_nat (n : nat) : string :=
  NilZero.string_of_uint (Nat.to_uint n).

Fixpoint zeros (n : nat) : string :=
  match n with
  | O => EmptyString
  | S k => String "0" (zeros k)
  end.

Definition zfill (w : nat) (s : string) : string :=
  zeros (w - String.length s) ++ s.

(** ** dict: insertion-ordered, keys compared by equality *)

Section Dict.
Context {K V : Type} (eqk : K -> K -> bool).

Fixpoint dict_get (d : list (K * V)) (k : K) : option V :=
  match d with
  | [] => None
  | (k', v) :: r => if eqk k' k then Some v else dict_get r k
  end.

(** [d[k] = v]: an existing key keeps its place. *)
Fixpoint dict_set (d : list (K * V)) (k : K) (v : V) : list (K * V) :=
  match d with
  | [] => [(k, v)]
  | (k', v') :: r =>
      if eqk k' k then (k', v) :: r else (k', v') :: dict_set r k v
  end.

End Dict.

Definition sget {V} (d : list (string * V)) (k : string) : option V :=
  dict_get String.eqb d k.
Definition sset {V} (d : list (string * V)) (k : string) (v : V) :=
  dict_set String.eqb d k v.

(** ** Dynamic operations on [pyval] *)

(** [v[k]] with a string key *)
Definition subscript (v : pyval) (k : string) : result pyval :=
  match v with
  | PDict d => match sget d k with Some x => Ok x | None => Raise KeyError end
  | _ => Raise TypeError
  end.

(** [v[0]] *)
Definition first_item (v : pyval) : result pyval :=
  match v with
  | PList (x :: _) => Ok x
  | PList [] => Raise IndexError
  | PStr (String c _) => Ok (PStr (String c EmptyString))
  | PStr EmptyString => Raise IndexError
  | PDict _ => Raise KeyError
  | _ => Raise TypeError
  end.

Definition opt_or {A} (o : option A) (dflt : A) : A :=
  match o with Some a => a | None => dflt end.

(** [v.get(k, dflt)] *)
Definition get_or (v : pyval) (k : string) (dflt : pyval) : result pyval :=
  match v with
  | PDict d => Ok (opt_or (sget d k) dflt)
  | _ => Raise AttributeError
  end.

(** [k in v.keys()] *)
Definition in_keys (v : pyval) (k : string) : result bool :=
  match v with
  | PDict d => Ok (match sget d k with Some _ => true | None => false end)
  | _ => Raise AttributeError
  end.

Fixpoint chars (s : string) : list pyval :=
  match s with
  | EmptyString => []
  | String c r => PStr (String c EmptyString) :: chars r
  end.

(** The items a [for] loop over [v] visits. *)
Definition iter (v : pyval) : result (list pyval) :=
  match v with
  | PList l => Ok l
  | PDict d => Ok (map (fun kv => PStr (fst kv)) d)
  | PStr s => Ok (chars s)
  | _ => Raise TypeError
  end.

(** [v == s] for a string literal [s] *)
Definition eq_str (v : pyval) (s : string) : bool :=
  match v with
  | PStr t => String.eqb t s
  | _ => false
  end.

(** Truth value of [v] *)
Definition truthy (v : pyval) : bool :=
  match v with
  | PNone => false
  | PBool b => b
  | PInt z => negb (z =? 0)%Z
  | PStr s => negb (String.eqb s "")
  | PList l => match l with [] => false | _ => true end
  | PDict d => match d with [] => false | _ => true end
  end.

(** Only hashable values can be dict keys. *)
Definition hashable (v : pyval) : bool :=
  match v with
  | PList _ | PDict _ => false
  | _ => true
  end.

(** Equality of dict keys: [True == 1] and [False == 0] hash alike. *)
Definition key_eqb (a b : pyval) : bool :=
  match a, b with
  | PNone, PNone => true
  | PBool x, PBool y => Bool.eqb x y
  | PInt x, PInt y => (x =? y)%Z
  | PBool x, PInt y | PInt y, PBool x => (y =? (if x then 1 else 0))%Z
  | PStr x, PStr y => String.eqb x y
  | _, _ => false
  end.

(** [for x in xs: acc = body(acc, x)], stopping at the first exception. *)
Fixpoint for_each {A S} (body : S -> A -> result S) (xs : list A) (acc : S)
  : result S :=
  match xs with
  | [] => Ok acc
  | x :: r => bind (body acc x) (for_each body r)
  end.

End Py.

Import Py.

Notation "x <- m ;; k" := (Py.bind m (fun x => k))
  (at level 61, m at next level, right associativity).

(* ================================================================== *)
(** * rare/components/tabs/shop/shop_models.py *)
(* ================================================================== *)

Module ShopModels.

(** ** class ImageUrlModel *)

Record ImageUrlModel : Type := mkImageUrlModel {
  front_tall : pyval;
  offer_image_tall : pyval;
  thumbnail : pyval;
  front_wide : pyval;
  offer_image_wide : pyval
}.

Module ImageUrlModel.

(** [cls()]: every argument of [__init__] at its default *)
Definition cls : ImageUrlModel :=
  mkImageUrlModel (PStr "") (PStr "") (PStr "") (PStr "") (PStr "").

(** The body of the loop of [ImageUrlModel.from_json]; [item["type"]] is
    read again by each [elif] the chain reaches. *)
Definition image_step (tmp : ImageUrlModel) (item : pyval)
  : result ImageUrlModel :=
  t <- subscript item "type" ;;
  if eq_str t "Thumbnail" then
    u <- subscript item "url" ;;
    Ok (mkImageUrlModel (front_tall tmp) (offer_image_tall tmp) u
                        (front_wide tmp) (offer_image_wide tmp))
  else t <- subscript item "type" ;;
  if eq_str t "DieselStoreFrontTall" then
    u <- subscript item "url" ;;
    Ok (mkImageUrlModel u (offer_image_tall tmp) (thumbnail tmp)
                        (front_wide tmp) (offer_image_wide tmp))
  else t <- subscript item "type" ;;
  if eq_str t "DieselStoreFrontWide" then
    u <- subscript item "url" ;;
    Ok (mkImageUrlModel (front_tall tmp) (offer_image_tall tmp)
                        (thumbnail tmp) u (offer_image_wide tmp))
  else t <- subscript item "type" ;;
  if eq_str t "OfferImageTall" then
    u <- subscript item "url" ;;
    Ok (mkImageUrlModel (front_tall tmp) u (thumbnail tmp)
                        (front_wide tmp) (offer_image_wide tmp))
  else t <- subscript item "type" ;;
  if eq_str t "OfferImageWide" then
    u <- subscript item "url" ;;
    Ok (mkImageUrlModel (front_tall tmp) (offer_image_tall tmp)
                        (thumbnail tmp) (front_wide tmp) u)
  else Ok tmp.

Definition from_json (json_data : pyval) : result ImageUrlModel :=
  items <- iter json_data ;;
  for_each image_step items cls.

End ImageUrlModel.

(** ** class ShopGame *)

(** [reqs]: system type -> requirement title -> (minimum, recommended) *)
Definition req_table : Type := list (pyval * (pyval * pyval)).
Definition reqs_dict : Type := list (pyval * req_table).

Record ShopGame : Type := mkShopGame {
  title : pyval;
  image_urls : ImageUrlModel;
  links : list (string * pyval);
  languages : pyval;
  available_voice_langs : pyval;
  reqs : reqs_dict;
  publisher : pyval;
  developer : pyval;
  price : pyval;
  discount_price : pyval;
  tags : list string;
  namespace : pyval;
  offer_id : pyval
}.

Module ShopGame.

(** [d[k] = v] and [d[k]] on a dict keyed by arbitrary values *)
Definition setitem {V} (d : list (pyval * V)) (k : pyval) (v : V)
  : result (list (pyval * V)) :=
  if hashable k then Ok (dict_set key_eqb d k v) else Raise TypeError.

Definition getitem {V} (d : list (pyval * V)) (k : pyval) : result V :=
  if hashable k then
    match dict_get key_eqb d k with
    | Some v => Ok v
    | None => Raise KeyError
    end
  else Raise TypeError.

(** The loop over the social links, written twice in the source
    ([__init__] and [from_json]):
    [if item.startswith("link"):
       links.append((item.replace("link", ""), social_links[item]))] *)
Definition link_step (social_links : pyval) (acc : list (string * pyval))
  (item : pyval) : result (list (string * pyval)) :=
  match item with
  | PStr k =>
      if startswith k "link" then
        v <- subscript social_links k ;;
        Ok (acc ++ [(replace "link" "" k, v)])%list
      else Ok acc
  | _ => Raise AttributeError
  end.

Definition collect_links (social_links : pyval)
  : result (list (string * pyval)) :=
  items <- iter social_links ;;
  for_each (link_step social_links) items [].

(** An entry of the social links that the loop keeps, and the pair it
    appends for it. *)
Definition is_link (kv : string * pyval) : bool := startswith (fst kv) "link".
Definition link_pair (kv : string * pyval) : string * pyval :=
  (replace "link" "" (fst kv), snd kv).

(** The [links] attribute [ShopGame.__init__] computes from its
    [social_links] argument ([None] by default). *)
Definition init_links (social_links : pyval)
  : result (list (string * pyval)) :=
  if truthy social_links then collect_links social_links else Ok [].

(** [for product in api_data: if product["_title"] == "home": ... break] *)
Fixpoint find_home (products : list pyval) : result (option pyval) :=
  match products with
  | [] => Ok None
  | product :: r =>
      t <- subscript product "_title" ;;
      if eq_str t "home" then Ok (Some product) else find_home r
  end.

Definition select_home (api_data : pyval) : result pyval :=
  match api_data with
  | PList products =>
      h <- find_home products ;;
      Ok (match h with Some product => product | None => api_data end)
  | _ => Ok api_data
  end.

Definition select_page (api_data : pyval) : result pyval :=
  has_pages <- in_keys api_data "pages" ;;
  if has_pages : bool then
    pages <- subscript api_data "pages" ;; first_item pages
  else Ok api_data.

(** The inner [try] of the requirements loop.  Python evaluates the
    right-hand side of the assignment first, then the target. *)
Definition req_step (system : pyval) (reqs : reqs_dict) (req : pyval)
  : result reqs_dict :=
  except_KeyError
    (mn <- subscript req "minimum" ;;
     rc <- subscript req "recommended" ;;
     st <- subscript system "systemType" ;;
     table <- getitem reqs st ;;
     t <- subscript req "title" ;;
     table' <- setitem table t (mn, rc) ;;
     setitem reqs st table')
    (Ok reqs).

(** The body of the loop over the systems: a [KeyError] in the first
    [try] is [continue]; [system["details"]] is outside both [try]s. *)
Definition system_step (reqs : reqs_dict) (system : pyval)
  : result reqs_dict :=
  match (st <- subscript system "systemType" ;; setitem reqs st []) with
  | Raise KeyError => Ok reqs
  | Raise e => Raise e
  | Ok reqs1 =>
      details <- subscript system "details" ;;
      ds <- iter details ;;
      for_each (req_step system) ds reqs1
  end.

(** [for i, system in enumerate(systems): ...], from an empty [reqs] *)
Definition parse_systems (systems : pyval) : result reqs_dict :=
  ss <- iter systems ;;
  for_each system_step ss [].

Definition parse_reqs (api_data : pyval) : result reqs_dict :=
  data <- subscript api_data "data" ;;
  requirements <- subscript data "requirements" ;;
  systems <- get_or requirements "systems" (PList []) ;;
  parse_systems systems.

(** [for i in search_data["customAttributes"]:
       if i["key"] == "developerName": tmp.developer = i["value"]] *)
Definition developer_step (dev : pyval) (i : pyval) : result pyval :=
  k <- subscript i "key" ;;
  if eq_str k "developerName" then subscript i "value" else Ok dev.

Definition developer_fallback (search_data : pyval) (dev : pyval)
  : result pyval :=
  if negb (truthy dev) then
    attrs <- subscript search_data "customAttributes" ;;
    items <- iter attrs ;;
    for_each developer_step items dev
  else Ok dev.

(** [i.replace("_", " ").capitalize()] *)
Definition tag_step (acc : list string) (i : pyval) : result (list string) :=
  match i with
  | PStr s => Ok (acc ++ [capitalize (replace "_" " " s)])%list
  | _ => Raise AttributeError
  end.

(** [[i.replace("_", " ").capitalize() for i in tag_list]] *)
Definition normalize_tags (tag_list : pyval) : result (list string) :=
  items <- iter tag_list ;;
  for_each tag_step items [].

Definition meta_get (api_data : pyval) (k : string) (dflt : pyval)
  : result pyval :=
  data <- subscript api_data "data" ;;
  meta <- subscript data "meta" ;;
  get_or meta k dflt.

Definition fmt_price (search_data : pyval) (k : string) : result pyval :=
  p <- subscript search_data "price" ;;
  tp <- subscript p "totalPrice" ;;
  fp <- subscript tp "fmtPrice" ;;
  subscript fp k.

(** [ShopGame.from_json(api_data, search_data)], statement by statement *)
Definition from_json (api_data search_data : pyval) : result ShopGame :=
  api_data <- select_home api_data ;;
  api_data <- select_page api_data ;;
  tmp_title <- get_or search_data "title" (PStr "Fail") ;;
  key_images <- subscript search_data "keyImages" ;;
  tmp_image_urls <- ImageUrlModel.from_json key_images ;;
  data <- subscript api_data "data" ;;
  social <- subscript data "socialLinks" ;;
  tmp_links <- collect_links social ;;
  data <- subscript api_data "data" ;;
  requirements <- subscript data "requirements" ;;
  tmp_langs <- get_or requirements "languages" (PStr "Failed") ;;
  tmp_reqs <- parse_reqs api_data ;;
  tmp_publisher <- meta_get api_data "publisher" (PStr "") ;;
  tmp_developer <- meta_get api_data "developer" (PStr "") ;;
  tmp_developer <- developer_fallback search_data tmp_developer ;;
  tmp_price <- fmt_price search_data "originalPrice" ;;
  tmp_discount <- fmt_price search_data "discountPrice" ;;
  tag_list <- meta_get api_data "tags" (PList []) ;;
  tmp_tags <- normalize_tags tag_list ;;
  tmp_namespace <- subscript search_data "namespace" ;;
  tmp_offer_id <- subscript search_data "id" ;;
  Ok (mkShopGame tmp_title tmp_image_urls tmp_links PNone tmp_langs tmp_reqs
        tmp_publisher tmp_developer tmp_price tmp_discount tmp_tags
        tmp_namespace tmp_offer_id).

End ShopGame.

(** ** class BrowseModel *)

Module BrowseModel.

(** What the interpreter can read from its surroundings at one moment:
    the configured language ([get_lang()]), the local clock
    ([datetime.now()]) and the next [random.randint(0, 999)]. *)
Record DateTime : Type := mkDateTime {
  year : nat; month : nat; day : nat;
  hour : nat; minute : nat; second : nat
}.

Record Env : Type := mkEnv {
  get_lang : string;
  now : DateTime;
  randint_0_999 : nat
}.

Definition pad2 (n : nat) : string := zfill 2 (str_of_nat n).

(** [datetime.strftime(t, '%Y-%m-%dT%X')] in the C locale, where [%X]
    is [%H:%M:%S] *)
Definition strftime_date_T_X (t : DateTime) : string :=
  str_of_nat (year t) ++ "-" ++ pad2 (month t) ++ "-" ++ pad2 (day t) ++ "T"
  ++ pad2 (hour t) ++ ":" ++ pad2 (minute t) ++ ":" ++ pad2 (second t).

(** The f-string of the [date] default *)
Definition date_expression (e : Env) : string :=
  "[," ++ strftime_date_T_X (now e) ++ "."
  ++ zfill 3 (str_of_nat (randint_0_999 e)) ++ "Z]".

Record BrowseModel : Type := mkBrowseModel {
  category : string;
  count : Z;
  locale : string;
  keywords : string;
  sortDir : string;
  start : Z;
  tag : string;
  withMapping : bool;
  withPrice : bool;
  date : string;
  price : string;
  onSale : bool
}.

(** The class body: the defaults are evaluated once, when the module is
    imported, in the environment [e] of that moment. *)
Definition class_defaults (e : Env) : BrowseModel := {|
  category := "games/edition/base|bundles/games|editors|software/edition/base";
  count := 30;
  locale := get_lang e;
  keywords := "";
  sortDir := "DESC";
  start := 0;
  tag := "";
  withMapping := true;
  withPrice := true;
  date := date_expression e;
  price := "";
  onSale := false
|}.

(** The keyword arguments of a call [BrowseModel(...)] *)
Record kwargs : Type := mkKwargs {
  kw_category : option string;
  kw_count : option Z;
  kw_locale : option string;
  kw_keywords : option string;
  kw_sortDir : option string;
  kw_start : option Z;
  kw_tag : option string;
  kw_withMapping : option bool;
  kw_withPrice : option bool;
  kw_date : option string;
  kw_price : option string;
  kw_onSale : option bool
}.

Definition no_kwargs : kwargs :=
  mkKwargs None None None None None None None None None None None None.

Definition arg {A} (given : option A) (dflt : A) : A :=
  match given with Some a => a | None => dflt end.

(** The [__init__] the dataclass decorator generates: each field is the
    argument, or the default of the class. *)
Definition __init__ (cls : BrowseModel) (kw : kwargs) : BrowseModel := {|
  category := arg (kw_category kw) (category cls);
  count := arg (kw_count kw) (count cls);
  locale := arg (kw_locale kw) (locale cls);
  keywords := arg (kw_keywords kw) (keywords cls);
  sortDir := arg (kw_sortDir kw) (sortDir cls);
  start := arg (kw_start kw) (start cls);
  tag := arg (kw_tag kw) (tag cls);
  withMapping := arg (kw_withMapping kw) (withMapping cls);
  withPrice := arg (kw_withPrice kw) (withPrice cls);
  date := arg (kw_date kw) (date cls);
  price := arg (kw_price kw) (price cls);
  onSale := arg (kw_onSale kw) (onSale cls)
|}.

(** [BrowseModel(price=s)] *)
Definition priced (s : string) : kwargs :=
  mkKwargs None None None None None None None None None None (Some s) None.

Definition payload : Type := list (string * pyval).

(** The property [__dict__], read in the environment [e] of the call;
    the body reads [self] only. *)
Definition __dict__ (e : Env) (self : BrowseModel) : payload :=
  let payload0 :=
    [ ("category", PStr (category self));
      ("count", PInt (count self));
      ("country", PStr (upper (locale self)));
      ("keywords", PStr (keywords self));
      ("locale", PStr (locale self));
      ("sortDir", PStr (sortDir self));
      ("allowCountries", PStr (upper (locale self)));
      ("start", PInt (start self));
      ("tag", PStr (tag self));
      ("withMapping", PBool (withMapping self));
      ("withPrice", PBool (withPrice self));
      ("releaseDate", PStr (date self));
      ("effectiveDate", PStr (date self)) ] in
  let payload1 :=
    if String.eqb (price self) "free" then
      sset payload0 "freeGame" (PBool true)
    else if startswith (price self) "<price>" then
      sset payload0 "priceRange" (PStr (replace "<price>" "" (price self)))
    else payload0 in
  if onSale self then sset payload1 "onSale" (PBool true) else payload1.

End BrowseModel.

End ShopModels.

(* ================================================================== *)
(** * Python floats *)
(* ================================================================== *)

(** [float] is IEEE 754 binary64.  The three operations [app.py] uses
    are correctly rounded: the true division of two integers (which
    [timedelta.total_seconds] is), the conversion of an integer and the
    subtraction; [int] of a float is exact. *)

Module Double.

Local Open Scope Z_scope.

(** A finite float, the number [mant * 2 ^ expo].  The range of the
    exponent is not modelled: the numbers below are seconds, between a
    microsecond and the span of the calendar. *)
Record float : Type := mkFloat { mant : Z; expo : Z }.

(** The integer nearest to [a / b] for [0 < b], ties to the even one *)
Definition rne (a b : Z) : Z :=
  let q := a / b in
  let r := a mod b in
  if 2 * r <? b then q
  else if b <? 2 * r then q + 1
  else if Z.even q then q else q + 1.

(** [a / d < 2 ^ k], for [0 <= a] and [0 < d] *)
Definition below_pow2 (a d k : Z) : bool :=
  if 0 <=? k then a <? d * 2 ^ k else a * 2 ^ (- k) <? d.

(** The [k] with [2 ^ (k - 1) <= |n| / d < 2 ^ k], for [n <> 0], [0 < d] *)
Definition mag (n d : Z) : Z :=
  let k := Z.log2 (Z.abs n) - Z.log2 d in
  if below_pow2 (Z.abs n) d k then k else k + 1.

(** The binary64 number nearest to [n / d] for [0 < d]: 53 bits of
    mantissa, ties to even. *)
Definition round (n d : Z) : float :=
  if n =? 0 then mkFloat 0 0
  else
    let e := mag n d - 53 in
    mkFloat (if 0 <=? e then rne n (d * 2 ^ e) else rne (n * 2 ^ (- e)) d) e.

(** [float(z)] and the true division [n / d] of two integers *)
Definition of_int (z : Z) : float := round z 1.
Definition div_int (n d : Z) : float := round n d.

(** [x - y] *)
Definition sub (x y : float) : float :=
  let e := Z.min (expo x) (expo y) in
  let num := mant x * 2 ^ (expo x - e) - mant y * 2 ^ (expo y - e) in
  if 0 <=? e then round (num * 2 ^ e) 1 else round num (2 ^ (- e)).

(** [int(x)]: towards zero *)
Definition trunc (x : float) : Z :=
  if 0 <=? expo x then mant x * 2 ^ expo x
  else Z.quot (mant x) (2 ^ (- expo x)).

(** ** What the lemmas on floats speak of *)

(** [L / 2 ^ 20 <= x <= H / 2 ^ 20], for an [x] with [expo x <= 0] *)
Definition within (L H : Z) (x : float) : Prop :=
  expo x <= 0 /\
  L * 2 ^ (- expo x) <= mant x * 2 ^ 20 <= H * 2 ^ (- expo x).

(** [W <= x] for an integer [W] *)
Definition at_least (W : Z) (x : float) : Prop :=
  if 0 <=? expo x then W <= mant x * 2 ^ expo x
  else W * 2 ^ (- expo x) <= mant x.

End Double.

(* ================================================================== *)
(** * rare/app.py *)
(* ================================================================== *)

Module RareApp.

Local Open Scope Z_scope.

(** A naive [datetime] as its place on the time line, in microseconds;
    a [timedelta] likewise. *)
Definition timestamp : Type := Z.

(** An entry of [core.get_installed_list()] *)
Record InstalledGame : Type := mkInstalledGame {
  app_name : string;
  title : string;
  install_path : string;
  executable : string;
  needs_verification : bool
}.

Definition set_needs_verification (igame : InstalledGame) (b : bool)
  : InstalledGame :=
  mkInstalledGame (app_name igame) (title igame) (install_path igame)
                  (executable igame) b.

(** What [app.py] calls and does not define: the backend core, its
    configuration, the filesystem and [datetime.fromisoformat], over a
    state [W] of everything outside the application object. *)
Class Externals (W : Type) : Type := {
  (** [core.login()]: the state it leaves, and the exception if it raised *)
  core_login : W -> W * option exn;
  (** [core.lgd.userdata['expires_at']] *)
  expires_at : W -> string;
  (** [datetime.fromisoformat(s)]; [None] is [ValueError] *)
  fromisoformat : string -> option timestamp;
  (** [core.get_installed_list()] *)
  get_installed_list : W -> list InstalledGame;
  (** [core.lgd.config.get(section, option)]; [None] when there is no
      such section or option, where the caller's [fallback] applies *)
  config_get : W -> string -> string -> option string;
  (** [os.path.exists(path)] *)
  path_exists : W -> string -> bool;
  (** [legendary_utils.uninstall_game(core, app_name, keep_files)] *)
  uninstall_game : W -> string -> bool -> W;
  (** [core.lgd.set_installed_game(app_name, igame)] *)
  set_installed_game : W -> string -> InstalledGame -> W
}.

(** ** The application object *)

(** The application object, as far as the session logic goes: the state
    of the world and the interval (ms) [QTimer.start] was last called
    with and accepted (whatever Qt makes of it: the record keeps a
    negative interval as it was passed). *)
Record App (W : Type) : Type := mkApp {
  world : W;
  timer : option Z
}.
Arguments mkApp {W} world timer.
Arguments world {W} a.
Arguments timer {W} a.

(** [td.total_seconds()] for a [timedelta] of [td] microseconds: the
    true division [td / 10**6] of two integers, a float *)
Definition total_seconds (td : Z) : Double.float := Double.div_int td 1000000.

(** [QTimer.start(msec)]: the argument is a C [int]; for a Python
    integer outside its range the call raises [OverflowError] and the
    timer is not started. *)
Definition timer_start {W : Type} (w : W) (msec : Z) : result (App W) :=
  if (-2147483648 <=? msec) && (msec <=? 2147483647)
  then Ok (mkApp w (Some msec))
  else Raise OverflowError.

Definition parse_iso {W : Type} {E : Externals W} (s : string) : result timestamp :=
  match fromisoformat s with
  | Some t => Ok t
  | None => Raise ValueError
  end.

(** ** The calls of the verification sweep of [App.start_app] *)

(** The calls the sweep makes, in order. *)
Inductive call : Type :=
| CallExists (path : string)
| CallConfigGet (section option : string)
| CallUninstall (app : string) (keep_files : bool)
| CallSetInstalled (app : string) (igame : InstalledGame)
| CallLogInfo (msg : string).

(** State of the world and log of calls *)
Definition M (W A : Type) : Type := W -> A * W * list call.

Definition ret {W A} (a : A) : M W A := fun w => (a, w, []).

Definition mbind {W A B} (m : M W A) (k : A -> M W B) : M W B :=
  fun w =>
    let '(a, w1, t1) := m w in
    let '(b, w2, t2) := k a w1 in
    (b, w2, (t1 ++ t2)%list).

Notation "'let*' x := m 'in' k" := (mbind m (fun x => k))
  (at level 10, x name, m at level 100, k at level 200).

Definition os_path_exists {W : Type} {E : Externals W} (path : string) : M W bool :=
  fun w => (path_exists w path, w, [CallExists path]).

Definition config_get_fallback {W : Type} {E : Externals W} (section option fallback : string)
  : M W string :=
  fun w => (match config_get w section option with
            | Some v => v
            | None => fallback
            end, w, [CallConfigGet section option]).

Definition call_uninstall_game {W : Type} {E : Externals W} (app : string) (keep_files : bool)
  : M W unit :=
  fun w => (tt, uninstall_game w app keep_files, [CallUninstall app keep_files]).

Definition call_set_installed_game {W : Type} {E : Externals W} (app : string)
  (igame : InstalledGame) : M W unit :=
  fun w => (tt, set_installed_game w app igame, [CallSetInstalled app igame]).

Definition logger_info {W} (msg : string) : M W unit :=
  fun w => (tt, w, [CallLogInfo msg]).

Definition backslash : string := String (ascii_of_nat 92) EmptyString.

(** [os.path.join(a, b)] where [os.path] is [posixpath] (Linux, macOS):
    a [b] that starts with a slash replaces [a].  Where [os.path] is
    [ntpath] (Windows) a [b] with a drive letter replaces [a] as well;
    that join is not modelled. *)
Definition path_join (a b : string) : string :=
  if startswith b "/" then b
  else if String.eqb a "" || ends_with_char "/" a then a ++ b
  else a ++ "/" ++ b.

(** [exe.replace(backslash, "/").lstrip("/")] *)
Definition normalize_exe (exe : string) : string :=
  lstrip_char "/" (replace backslash "/" exe).

(** ** class App *)

Module App.

(** The end of [App.__init__], after [launch_dialog.login()] left the
    world in [w]; [utcnow] is the reading of [datetime.utcnow()]. *)
Definition __init__ {W : Type} {E : Externals W} (w : W) (utcnow : timestamp)
  : result (App W) :=
  dt_exp <- parse_iso (drop_last (expires_at w)) ;;
  let dt_now := utcnow in
  let td := Z.abs (dt_exp - dt_now) in
  timer_start w
    (Double.trunc (Double.sub (total_seconds td) (Double.of_int 60)) * 1000).

(** [App.re_login] *)
Definition re_login {W : Type} {E : Externals W} (self : App W) (utcnow : timestamp)
  : result (App W) :=
  let (w, raised) := core_login (world self) in
  match raised with
  | Some ConnectionError => timer_start w 3000
  | Some e => Raise e
  | None =>
      dt_exp <- parse_iso (drop_last (expires_at w)) ;;
      let dt_now := utcnow in
      let td := Z.abs (dt_exp - dt_now) in
      timer_start w
        (Double.trunc (Double.sub (total_seconds td) (Double.of_int 60)) * 1000)
  end.

(** One turn of the loop over the installed games; the result is the
    record as the turn leaves it. *)
Definition check_igame {W : Type} {E : Externals W} (igame : InstalledGame)
  : M W InstalledGame :=
  let* found := os_path_exists (install_path igame) in
  if negb found then
    let* _ := call_uninstall_game (app_name igame) true in
    let* _ := logger_info
                ("Uninstalled " ++ title igame ++ ", because no game files exist") in
    ret igame
  else
    let* override_exe := config_get_fallback (app_name igame) "override_exe" "" in
    let igame_executable :=
      if negb (String.eqb override_exe "") then override_exe
      else executable igame in
    let* found_exe :=
      os_path_exists (path_join (install_path igame)
                                (normalize_exe igame_executable)) in
    if negb found_exe then
      let igame' := set_needs_verification igame true in
      let* _ := call_set_installed_game (app_name igame) igame' in
      let* _ := logger_info (title igame ++ " needs verification") in
      ret igame'
    else ret igame.

Fixpoint sweep {W : Type} {E : Externals W} (igames : list InstalledGame)
  : M W (list InstalledGame) :=
  match igames with
  | [] => ret []
  | igame :: rest =>
      let* igame' := check_igame igame in
      let* rest' := sweep rest in
      ret (igame' :: rest')
  end.

(** The loop of [App.start_app] over [core.get_installed_list()] *)
Definition start_app {W : Type} {E : Externals W} : M W (list InstalledGame) :=
  fun w => sweep (get_installed_list w) w.

End App.

(** ** What the statements below speak of *)

(** The interval a call left the timer with, if it returned *)
Definition timer_of {W : Type} (r : result (App W)) : option Z :=
  match r with
  | Ok a => timer a
  | Raise _ => None
  end.

(** The whole seconds of a span of [us] microseconds, towards zero: what
    [int] gives of the exact number of seconds *)
Definition int_of_seconds (us : Z) : Z := Z.quot us 1000000.

(** 60 seconds less than the distance between expiry and now, cut to
    whole seconds, in milliseconds, in exact arithmetic *)
Definition renewal_delay_ms (dt_exp dt_now : timestamp) : Z :=
  int_of_seconds (Z.abs (dt_exp - dt_now) - 60 * 1000000) * 1000.

(** The delay as specified, [expires_at - now - 60s], in microseconds *)
Definition specified_delay_us (dt_exp dt_now : timestamp) : Z :=
  dt_exp - dt_now - 60 * 1000000.

(** The executable the sweep looks for, and where *)
Definition effective_executable {W : Type} {E : Externals W} (w : W)
  (igame : InstalledGame) : string :=
  let override_exe := opt_or (config_get w (app_name igame) "override_exe") "" in
  if negb (String.eqb override_exe "") then override_exe else executable igame.

Definition executable_path {W : Type} {E : Externals W} (w : W)
  (igame : InstalledGame) : string :=
  path_join (install_path igame) (normalize_exe (effective_executable w igame)).

Definition uninstalled_calls (igame : InstalledGame) : list call :=
  [ CallExists (install_path igame);
    CallUninstall (app_name igame) true;
    CallLogInfo ("Uninstalled " ++ title igame ++ ", because no game files exist") ].

Definition lookup_calls {W : Type} {E : Externals W} (w : W)
  (igame : InstalledGame) : list call :=
  [ CallExists (install_path igame);
    CallConfigGet (app_name igame) "override_exe";
    CallExists (executable_path w igame) ].

Definition flagged_calls {W : Type} {E : Externals W} (w : W)
  (igame : InstalledGame) : list call :=
  (lookup_calls w igame ++
   [ CallSetInstalled (app_name igame) (set_needs_verification igame true);
     CallLogInfo (title igame ++ " needs verification") ])%list.

(** ** The restart loop of [start] *)

Definition restart_code : Z := -133742.

(** The steps of one turn of [while True]:
    [core = LegendaryCoreSingleton(init=True)],
    [config_helper.init_config_handler(core)], [app = App(args)],
    [exit_code = app.exec_()], [del app], [core.exit()],
    [clear_singleton_instance(core)] *)
Inductive step : Type :=
| CoreInit
| InitConfigHandler
| AppNew
| AppExec (exit_code : Z)
| AppDel
| CoreExit
| ClearCoreSingleton.

(** [start] returned ([break]), or the application is still running. *)
Inductive outcome : Type :=
| Returned
| AppRunning.

Definition startup : list step := [CoreInit; InitConfigHandler; AppNew].
Definition teardown : list step := [AppDel; CoreExit; ClearCoreSingleton].

(** A whole turn: startup, the run of the application, teardown *)
Definition turn (exit_code : Z) : list step :=
  (startup ++ [AppExec exit_code] ++ teardown)%list.

(** The loop, given the exit codes the successive [app.exec_()] return.
    When they run out, the last application built is still running. *)
Fixpoint start (exit_codes : list Z) : list step * outcome :=
  match exit_codes with
  | [] => (startup, AppRunning)
  | exit_code :: later =>
      let steps := (startup ++ [AppExec exit_code] ++ teardown)%list in
      if negb (exit_code =? restart_code)%Z then (steps, Returned)
      else let (more, o) := start later in ((steps ++ more)%list, o)
  end.

End RareApp.

(* ================================================================== *)
(** * A concrete world to run the application model in *)
(* ================================================================== *)

Module Sim.

Import RareApp RareApp.App.
Local Open Scope Z_scope.

(** Paths that exist, the configuration file, the installed games, the
    current session and the outcomes of the logins still to come (the
    exception raised, or the expiry of the renewed session). *)
Record sim : Type := mkSim {
  paths : list string;
  config : list (string * list (string * string));
  installed : list InstalledGame;
  session_expires_at : string;
  logins : list (exn + string)
}.

Definition sim_login (w : sim) : sim * option exn :=
  match logins w with
  | [] => (w, Some OtherError)
  | inl e :: later =>
      (mkSim (paths w) (config w) (installed w) (session_expires_at w) later,
       Some e)
  | inr expiry :: later =>
      (mkSim (paths w) (config w) (installed w) expiry later, None)
  end.

(** A few timestamps [datetime.fromisoformat] reads, as microseconds
    since 1970-01-01T00:00:00. *)
Definition sim_fromisoformat (s : string) : option timestamp :=
  sget [ ("1970-01-01T00:00:00.000", 0);
         ("1970-01-01T00:01:40.000", 100000000);
         ("1970-01-01T00:03:20.000", 200000000);
         ("1970-01-01T01:00:00.000", 3600000000);
         ("1970-02-01T00:00:00.000", 2678400000000) ] s.

Definition sim_config_get (w : sim) (section key : string) : option string :=
  match sget (config w) section with
  | Some opts => sget opts key
  | None => None
  end.

Definition sim_path_exists (w : sim) (path : string) : bool :=
  existsb (String.eqb path) (paths w).

(** Uninstalling forgets the record and its configuration; the files go
    only when [keep_files] is false. *)
Definition sim_uninstall_game (w : sim) (app : string) (keep_files : bool) : sim :=
  let gone := filter (fun g => String.eqb (app_name g) app) (installed w) in
  mkSim (if keep_files then paths w
         else filter (fun p => negb (existsb (fun g => String.eqb (install_path g) p) gone))
                     (paths w))
        (filter (fun kv => negb (String.eqb (fst kv) app)) (config w))
        (filter (fun g => negb (String.eqb (app_name g) app)) (installed w))
        (session_expires_at w) (logins w).

Fixpoint store_igame (l : list InstalledGame) (app : string) (g : InstalledGame)
  : list InstalledGame :=
  match l with
  | [] => [g]
  | x :: r => if String.eqb (app_name x) app then g :: r
              else x :: store_igame r app g
  end.

Definition sim_set_installed_game (w : sim) (app : string) (g : InstalledGame) : sim :=
  mkSim (paths w) (config w) (store_igame (installed w) app g)
        (session_expires_at w) (logins w).

#[export] Instance sim_externals : Externals sim := {|
  core_login := sim_login;
  expires_at := session_expires_at;
  fromisoformat := sim_fromisoformat;
  get_installed_list := installed;
  config_get := sim_config_get;
  path_exists := sim_path_exists;
  uninstall_game := sim_uninstall_game;
  set_installed_game := sim_set_installed_game
|}.

End Sim.

(* ================================================================== *)
(** * Sample documents *)
(* ================================================================== *)

Module Samples.

Import ShopModels.

(** The least search document [from_json] accepts. *)
Definition search_doc : list (string * pyval) :=
  [ ("keyImages", PList []);
    ("customAttributes", PList []);
    ("price", PDict [("totalPrice", PDict [("fmtPrice",
        PDict [("originalPrice", PStr "19.99");
               ("discountPrice", PStr "9.99")])])]);
    ("namespace", PStr "ns");
    ("id", PStr "offer") ].

(** [search_doc] without its [keyImages]. *)
Definition search_doc_no_images : list (string * pyval) :=
  [ ("customAttributes", PList []);
    ("price", PDict [("totalPrice", PDict [("fmtPrice",
        PDict [("originalPrice", PStr "19.99");
               ("discountPrice", PStr "9.99")])])]);
    ("namespace", PStr "ns");
    ("id", PStr "offer") ].

(** [search_doc] without its [customAttributes]. *)
Definition search_doc_no_attributes : list (string * pyval) :=
  [ ("keyImages", PList []);
    ("price", PDict [("totalPrice", PDict [("fmtPrice",
        PDict [("originalPrice", PStr "19.99");
               ("discountPrice", PStr "9.99")])])]);
    ("namespace", PStr "ns");
    ("id", PStr "offer") ].

(** [search_doc] with a price that has no [fmtPrice]. *)
Definition search_doc_no_fmt_price : list (string * pyval) :=
  [ ("keyImages", PList []);
    ("customAttributes", PList []);
    ("price", PDict [("totalPrice", PDict [("originalPrice", PStr "19.99")])]);
    ("namespace", PStr "ns");
    ("id", PStr "offer") ].

Definition data_block (social requirements meta : list (string * pyval))
  : list (string * pyval) :=
  [ ("socialLinks", PDict social);
    ("requirements", PDict requirements);
    ("meta", PDict meta) ].

(** The least catalog document [from_json] accepts. *)
Definition catalog_doc : list (string * pyval) :=
  [ ("data", PDict (data_block [] [] [])) ].

(** A catalog document with one system block that names its system and
    has no [details]. *)
Definition catalog_doc_no_details : list (string * pyval) :=
  [ ("data", PDict (data_block []
      [("systems", PList [PDict [("systemType", PStr "Windows")]])] [])) ].

(** A catalog document in the list shape whose first entry has no
    [_title]. *)
Definition catalog_list_untitled : pyval :=
  PList [ PDict [("data", PDict (data_block [] [] []))];
          PDict (("_title", PStr "home") :: catalog_doc) ].

(** A catalog document with a social link whose name holds [link] twice. *)
Definition catalog_doc_backlink : list (string * pyval) :=
  [ ("data", PDict (data_block
      [("linkBacklink", PStr "https://example.org")] [] [])) ].

(** A catalog document in the list shape, with every optional field. *)
Definition catalog_doc_full : pyval :=
  PList [
    PDict [("_title", PStr "about")];
    PDict [("_title", PStr "home");
           ("data", PDict (data_block
             [("_type", PStr "Social Links");
              ("linkTwitter", PStr "https://twitter.example/game");
              ("linkHomepage", PStr "https://game.example")]
             [("languages", PList [PStr "AUDIO: English"]);
              ("systems", PList [
                 PDict [("details", PList [])];
                 PDict [("systemType", PStr "Windows");
                        ("details", PList [
                           PDict [("title", PStr "OS");
                                  ("minimum", PStr "Windows 7");
                                  ("recommended", PStr "Windows 10")];
                           PDict [("title", PStr "Memory");
                                  ("minimum", PStr "4 GB")]])]])]
             [("publisher", PStr "Pub");
              ("tags", PList [PStr "indie_game"; PStr "ACTION"])]))]].

Definition search_doc_full : pyval :=
  PDict [
    ("title", PStr "Game");
    ("keyImages", PList [
       PDict [("type", PStr "Thumbnail"); ("url", PStr "a")];
       PDict [("type", PStr "DieselStoreFrontTall"); ("url", PStr "b")];
       PDict [("type", PStr "Unknown"); ("url", PStr "c")]]);
    ("customAttributes", PList [
       PDict [("key", PStr "developerName"); ("value", PStr "Dev")]]);
    ("price", PDict [("totalPrice", PDict [("fmtPrice",
        PDict [("originalPrice", PStr "19.99");
               ("discountPrice", PStr "9.99")])])]);
    ("namespace", PStr "ns");
    ("id", PStr "offer") ].

(** ** A library of three games *)

Definition game_a : RareApp.InstalledGame :=
  RareApp.mkInstalledGame "A" "Alpha" "/games/a"
    ("bin" ++ RareApp.backslash ++ "a.exe") false.
Definition game_b : RareApp.InstalledGame :=
  RareApp.mkInstalledGame "B" "Beta" "/games/b" "b.exe" false.
Definition game_c : RareApp.InstalledGame :=
  RareApp.mkInstalledGame "C" "Gamma" "/games/c" "c.exe" true.

(** [/games/a] is there without its executable, [/games/b] is gone,
    [/games/c] is there with the executable its override names. *)
Definition library_of (games : list RareApp.InstalledGame) : Sim.sim :=
  Sim.mkSim ["/games/a"; "/games/c"; "/games/c/run.sh"]
            [("C", [("override_exe", "/run.sh")])]
            games
            "1970-01-01T01:00:00.000Z"
            [inl ConnectionError; inr "1970-01-01T00:03:20.000Z"].

Definition library : Sim.sim := library_of [game_a; game_b; game_c].

(** A session that expired at the start of 1970 and is renewed by one
    that expired then, and one that expires 100 seconds later. *)
Definition expired_session : Sim.sim :=
  Sim.mkSim [] [] [] "1970-01-01T00:00:00.000Z"
            [inr "1970-01-01T00:00:00.000Z"].
Definition short_session : Sim.sim :=
  Sim.mkSim [] [] [] "1970-01-01T00:01:40.000Z" [].

(** A session that expires 31 days after the start of 1970, renewed by
    one that expires as late. *)
Definition long_session : Sim.sim :=
  Sim.mkSim [] [] [] "1970-02-01T00:00:00.000Z"
            [inr "1970-02-01T00:00:00.000Z"].

End Samples.


(* ================================================================== *)
(** * What the further statements speak of *)
(* ================================================================== *)

Module Shapes.

Import ShopModels ShopModels.ShopGame.

(** ** What [ShopGame.from_json] needs of the two documents *)

(** An entry of a catalog list that has a [_title] other than [home] *)
Definition is_other_page (product : pyval) : bool :=
  match product with
  | PDict d =>
      match sget d "_title" with
      | Some t => negb (eq_str t "home")
      | None => false
      end
  | _ => false
  end.

(** The page parsed of a dict: the first of its [pages] when it has
    that key, the dict itself otherwise *)
Definition first_page (d : list (string * pyval)) (page : pyval) : Prop :=
  match sget d "pages" with
  | Some pages => first_item pages = Ok page
  | None => page = PDict d
  end.

(** The page parsed of the catalog document: that of the document when
    it is a dict; when it is a list, that of its first entry titled
    [home], every entry before which is a dict with another [_title] *)
Definition selected_page (api_data page : pyval) : Prop :=
  match api_data with
  | PDict d => first_page d page
  | PList products =>
      exists before d after t,
        products = (before ++ PDict d :: after)%list /\
        forallb is_other_page before = true /\
        sget d "_title" = Some t /\ eq_str t "home" = true /\
        first_page d page
  | _ => False
  end.

Definition has_key (d : list (string * pyval)) (k : string) : bool :=
  match sget d k with
  | Some _ => true
  | None => false
  end.

(** [v] can be looped over and [p] holds of every item the loop visits *)
Definition all_items (p : pyval -> bool) (v : pyval) : bool :=
  match iter v with
  | Ok items => forallb p items
  | Raise _ => false
  end.

(** The types [ImageUrlModel.from_json] knows *)
Definition image_types : list string :=
  [ "Thumbnail"; "DieselStoreFrontTall"; "DieselStoreFrontWide";
    "OfferImageTall"; "OfferImageWide" ].

(** An entry of [keyImages] the loop gets past: a dict with a [type],
    and with an [url] when the type is one the loop knows *)
Definition image_entry_ok (item : pyval) : bool :=
  match item with
  | PDict d =>
      match sget d "type" with
      | Some t => if existsb (eq_str t) image_types then has_key d "url" else true
      | None => false
      end
  | _ => false
  end.

(** Social links the loop gets past: a dict; a string (no character of
    it starts with [link]); a list of strings none of which starts with
    [link] (the one that did would be used to subscript the list) *)
Definition links_ok (social : pyval) : bool :=
  match social with
  | PDict _ | PStr _ => true
  | PList l =>
      forallb (fun item => match item with
                           | PStr k => negb (startswith k "link")
                           | _ => false
                           end) l
  | _ => false
  end.

(** A requirement the inner loop gets past: a dict; when it has
    [minimum], [recommended] and [title], the title can be a key *)
Definition req_ok (req : pyval) : bool :=
  match req with
  | PDict r =>
      match sget r "minimum", sget r "recommended", sget r "title" with
      | Some _, Some _, Some t => hashable t
      | _, _, _ => true
      end
  | _ => false
  end.

(** A system block the loop gets past: a dict; when it has a
    [systemType], the type can be a key and the block has [details],
    which are requirements the inner loop gets past *)
Definition system_ok (system : pyval) : bool :=
  match system with
  | PDict s =>
      match sget s "systemType" with
      | None => true
      | Some st =>
          hashable st &&
          match sget s "details" with
          | Some details => all_items req_ok details
          | None => false
          end
      end
  | _ => false
  end.

(** A custom attribute the loop gets past: a dict with a [key], and
    with a [value] when the key is [developerName] *)
Definition attribute_ok (i : pyval) : bool :=
  match i with
  | PDict d =>
      match sget d "key" with
      | Some k => if eq_str k "developerName" then has_key d "value" else true
      | None => false
      end
  | _ => false
  end.

Definition is_str (v : pyval) : bool :=
  match v with
  | PStr _ => true
  | _ => false
  end.

(** Everything [from_json] reads without a default, in the selected
    catalog page [page] and the search document [sd]; [dd], [rq] and
    [mt] are the [data], [requirements] and [meta] blocks.  The reads
    with a default ([title], [languages], [systems], [publisher],
    [developer], [tags]) are not in the list. *)
Definition required_keys (page sd dd rq mt : list (string * pyval)) : Prop :=
  (exists imgs, sget sd "keyImages" = Some imgs /\
                all_items image_entry_ok imgs = true) /\
  sget page "data" = Some (PDict dd) /\
  (exists social, sget dd "socialLinks" = Some social /\
                  links_ok social = true) /\
  sget dd "requirements" = Some (PDict rq) /\
  all_items system_ok (opt_or (sget rq "systems") (PList [])) = true /\
  sget dd "meta" = Some (PDict mt) /\
  (truthy (opt_or (sget mt "developer") (PStr "")) = false ->
   exists attrs, sget sd "customAttributes" = Some attrs /\
                 all_items attribute_ok attrs = true) /\
  (exists p tp fp,
     sget sd "price" = Some (PDict p) /\
     sget p "totalPrice" = Some (PDict tp) /\
     sget tp "fmtPrice" = Some (PDict fp) /\
     has_key fp "originalPrice" = true /\
     has_key fp "discountPrice" = true) /\
  all_items is_str (opt_or (sget mt "tags") (PList [])) = true /\
  has_key sd "namespace" = true /\
  has_key sd "id" = true.

(** ** What the further statements speak of *)

(** An entry of [keyImages] with a [type] and an [url] *)
Definition is_image_entry (item : pyval) : bool :=
  match item with
  | PDict d =>
      match sget d "type", sget d "url" with
      | Some _, Some _ => true
      | _, _ => false
      end
  | _ => false
  end.

(** The [url] of the last entry of [items] whose [type] is [ty], or
    [dflt] when there is none *)
Fixpoint last_url (ty : string) (items : list pyval) (dflt : pyval) : pyval :=
  match items with
  | [] => dflt
  | item :: r =>
      last_url ty r
        (match subscript item "type", subscript item "url" with
         | Ok t, Ok u => if eq_str t ty then u else dflt
         | _, _ => dflt
         end)
  end.

(** [c] does not stand in [s] *)
Fixpoint no_char (c : ascii) (s : string) : bool :=
  match s with
  | EmptyString => true
  | String a r => negb (Ascii.eqb a c) && no_char c r
  end.

(** [old] stands somewhere in [s] *)
Fixpoint occurs (old s : string) : bool :=
  String.prefix old s ||
  match s with
  | EmptyString => false
  | String _ r => occurs old r
  end.

(** A custom attribute with a [key] and a [value] *)
Definition is_attribute (i : pyval) : bool :=
  match i with
  | PDict d =>
      match sget d "key", sget d "value" with
      | Some _, Some _ => true
      | _, _ => false
      end
  | _ => false
  end.

(** The [value] of the last attribute whose [key] is [developerName],
    or [dflt] *)
Fixpoint last_developer (attrs : list pyval) (dflt : pyval) : pyval :=
  match attrs with
  | [] => dflt
  | i :: r =>
      last_developer r
        (match subscript i "key", subscript i "value" with
         | Ok k, Ok v => if eq_str k "developerName" then v else dflt
         | _, _ => dflt
         end)
  end.


(** The row a requirement adds to the table of its system: nothing when
    [minimum], [recommended] or [title] is missing *)
Definition table_step (table : req_table) (req : pyval) : result req_table :=
  except_KeyError
    (mn <- subscript req "minimum" ;;
     rc <- subscript req "recommended" ;;
     t <- subscript req "title" ;;
     setitem table t (mn, rc))
    (Ok table).

(** The table of a system block, from its [details] alone *)
Definition parse_rows (details : pyval) : result req_table :=
  ds <- iter details ;;
  for_each table_step ds [].

End Shapes.

Module Traces.
Import RareApp RareApp.App.

(** A call the sweep may make: never an uninstall that deletes the
    files, and a record is stored only flagged and under its own name. *)
Definition safe_call (c : call) : Prop :=
  match c with
  | CallUninstall _ keep_files => keep_files = true
  | CallSetInstalled app igame =>
      needs_verification igame = true /\ app = app_name igame
  | _ => True
  end.

(** What a turn of the sweep may do to a record: raise its flag. *)
Definition same_game (before after : InstalledGame) : Prop :=
  app_name after = app_name before /\
  title after = title before /\
  install_path after = install_path before /\
  executable after = executable before /\
  (needs_verification before = true -> needs_verification after = true).

Definition is_core_init (s : step) : bool :=
  match s with CoreInit => true | _ => false end.
Definition is_core_exit (s : step) : bool :=
  match s with CoreExit => true | _ => false end.
Definition is_app_new (s : step) : bool :=
  match s with AppNew => true | _ => false end.
Definition is_app_del (s : step) : bool :=
  match s with AppDel => true | _ => false end.

Definition count (p : step -> bool) (steps : list step) : nat :=
  List.length (filter p steps).

End Traces.

(* ================================================================== *)
(** * rare/app.py: the fault handler and the shutdown *)
(* ================================================================== *)

Module Shutdown.

Local Open Scope Z_scope.

(** What the handler and [exit_app] do to the outside, in order;
    [Uncaught e] ends a call that an exception [e] leaves. *)
Inductive effect : Type :=
| Print (text : string)
| CoreLogin
| LogFatal (text : string)
| MessageBoxWarning (title text : string)
| QApplicationExit (code : Z)
| WaitForDone
| TimerStop
| TimerDeleteLater
| MainWindowClose
| ClearSignals
| ClearArguments
| ClearApiResults
| ProcessEvents
| Rmtree
| Makedirs
| AppExit (code : Z)
| Uncaught (e : exn).

(** ** excepthook *)

(** The third argument of the hook: the interpreter passes a traceback
    object or [None]; a caller of its own may pass any object, the
    class [HTTPError] included.  Neither a traceback nor [None] defines
    an equality of its own, so [exc_tb == HTTPError] holds for the class
    itself only. *)
Inductive tb_object : Type :=
| TracebackObject
| NoneObject
| HTTPErrorClass.

Definition eq_HTTPError (exc_tb : tb_object) : bool :=
  match exc_tb with
  | HTTPErrorClass => true
  | _ => false
  end.

(** What [LegendaryCoreSingleton().login()] does when called: it
    returns a value that is true or false, or raises an [Exception]
    whose [str] is [msg]. *)
Inductive login_outcome : Type :=
| LoginReturns (ok : bool)
| LoginRaises (msg : string).

(** [traceback.format_exception(exc_type, exc_value, exc_tb)]: [tb] is
    the text it makes of a traceback object or of [None].  It walks
    [exc_tb] by its attributes [tb_frame] and [tb_next]; a class has
    neither. *)
Definition format_exception (tb : string) (exc_tb : tb_object)
  : result string :=
  match exc_tb with
  | TracebackObject | NoneObject => Ok tb
  | HTTPErrorClass => Raise AttributeError
  end.

(** [excepthook(exc_type, exc_value, exc_tb)].  [raise ValueError] is
    caught by the [except] around it, and [str] of it is empty. *)
Definition excepthook (tb : string) (exc_tb : tb_object)
  (login : login_outcome) : list effect :=
  let failed (msg : string) :=
    [ LogFatal msg; MessageBoxWarning "Error" "Failed to login";
      QApplicationExit 1 ] in
  match format_exception tb exc_tb with
  | Raise e => [Uncaught e]
  | Ok tb =>
      ([Print "Error"] ++
       if eq_HTTPError exc_tb then
         [CoreLogin] ++
         match login with
         | LoginReturns true => []
         | LoginReturns false => failed ""
         | LoginRaises msg => failed msg
         end
       else
         [ LogFatal tb; MessageBoxWarning "Error" tb; QApplicationExit 1 ])%list
  end.

(** ** App.exit_app *)

(** The two attributes [exit_app] releases: whether each is not [None] *)
Record handles : Type := mkHandles {
  has_timer : bool;
  has_mainwindow : bool
}.

(** What [shutil.rmtree(tmp_dir)] and [os.makedirs(tmp_dir)] do when
    called: return, or raise an [OSError] *)
Record disk : Type := mkDisk {
  rmtree_raises : bool;
  makedirs_raises : bool
}.

(** [App.exit_app(exit_code)]: the attributes as it leaves them and what
    it did; an exception of [rmtree] or [makedirs] ends it there. *)
Definition exit_app (self : handles) (d : disk) (exit_code : Z)
  : handles * list effect :=
  let released :=
    ([WaitForDone] ++
     (if has_timer self then [TimerStop; TimerDeleteLater] else []) ++
     (if has_mainwindow self then [MainWindowClose] else []) ++
     [ClearSignals; ClearArguments; ClearApiResults; ProcessEvents; Rmtree])%list in
  (mkHandles false false,
   if rmtree_raises d then released
   else if makedirs_raises d then (released ++ [Makedirs])%list
   else (released ++ [Makedirs; AppExit exit_code])%list).

Definition is_exit (e : effect) : bool :=
  match e with
  | QApplicationExit _ | AppExit _ => true
  | _ => false
  end.

Definition is_release (e : effect) : bool :=
  match e with
  | TimerStop | TimerDeleteLater | MainWindowClose => true
  | _ => false
  end.

End Shutdown.

(* ================================================================== *)
(** * Properties of the string operations *)
(* ================================================================== *)

Section StringProperties.

Lemma prefix_app (p r : string) : String.prefix p (p ++ r) = true.
Proof.
  induction p as [|c p IH]; simpl.
  - destruct r; reflexivity.
  - destruct (ascii_dec c c) as [_|Hn]; [exact IH | now elim Hn].
Qed.

Lemma prefix_split (p s : string) :
  String.prefix p s = true -> s = p ++ remainder p s.
Proof.
  unfold remainder. revert s. induction p as [|c p IH]; intros s Hp; simpl.
  - reflexivity.
  - destruct s as [|a s]; simpl in Hp; [discriminate|].
    destruct (ascii_dec c a) as [->|]; [|discriminate].
    f_equal. now apply IH.
Qed.

Lemma replace_scan_skip (old new s1 r : string) :
  replace_scan old new (String.length s1) (s1 ++ r) = replace_scan old new 0 r.
Proof.
  induction s1 as [|c s1 IH]; simpl.
  - reflexivity.
  - exact IH.
Qed.

(** Replacing in a string that starts with [old] replaces that first
    occurrence and goes on replacing in the rest. *)
Lemma replace_prefix (old new r : string) :
  old <> "" -> replace old new (old ++ r) = new ++ replace old new r.
Proof.
  destruct old as [|c o]; [congruence|]. intros _.
  unfold replace.
  change (String c o ++ r) with (String c (o ++ r)).
  cbn [replace_scan].
  change (String c (o ++ r)) with (String c o ++ r).
  rewrite prefix_app.
  replace (String.length (String c o) - 1) with (String.length o)
    by (simpl; lia).
  now rewrite replace_scan_skip.
Qed.

End StringProperties.

(* ================================================================== *)
(** * Properties of the browse query *)
(* ================================================================== *)

Section BrowseProperties.
Import ShopModels.BrowseModel.

Example date_expression_sample :
  date_expression (mkEnv "en" (mkDateTime 2022 3 5 14 7 9) 7)
  = "[,2022-03-05T14:07:09.007Z]".
Proof. reflexivity. Qed.

Lemma dict_price_free (e : Env) (q : BrowseModel) :
  price q = "free" ->
  sget (__dict__ e q) "freeGame" = Some (PBool true) /\
  sget (__dict__ e q) "priceRange" = None.
Proof.
  intros Hp. unfold __dict__. rewrite Hp.
  destruct (onSale q); split; reflexivity.
Qed.

Lemma dict_price_range (e : Env) (q : BrowseModel) :
  startswith (price q) "<price>" = true ->
  sget (__dict__ e q) "priceRange"
    = Some (PStr (replace "<price>" "" (price q))) /\
  sget (__dict__ e q) "freeGame" = None.
Proof.
  intros Hp. unfold __dict__.
  assert (Hfree : String.eqb (price q) "free" = false).
  { destruct (String.eqb_spec (price q) "free") as [Heq|]; [|reflexivity].
    rewrite Heq in Hp. discriminate Hp. }
  rewrite Hfree, Hp.
  destruct (onSale q); split; reflexivity.
Qed.

Lemma dict_price_default (e : Env) (q : BrowseModel) :
  price q = "" ->
  sget (__dict__ e q) "freeGame" = None /\
  sget (__dict__ e q) "priceRange" = None.
Proof.
  intros Hp. unfold __dict__. rewrite Hp.
  destruct (onSale q); split; reflexivity.
Qed.

Lemma dict_onSale (e : Env) (q : BrowseModel) :
  sget (__dict__ e q) "onSale"
    = if onSale q then Some (PBool true) else None.
Proof.
  unfold __dict__.
  destruct (String.eqb (price q) "free");
    [|destruct (startswith (price q) "<price>")];
    destruct (onSale q); reflexivity.
Qed.

(** The value of [priceRange] is the rest of the price with the further
    markers taken out. *)
Lemma price_range_of_rest (e : Env) (q : BrowseModel) :
  startswith (price q) "<price>" = true ->
  sget (__dict__ e q) "priceRange"
    = Some (PStr (replace "<price>" "" (remainder "<price>" (price q)))).
Proof.
  intros Hp. rewrite (proj1 (dict_price_range e q Hp)).
  rewrite (prefix_split "<price>" (price q) Hp) at 1.
  now rewrite replace_prefix by discriminate.
Qed.

(** C6: at a price that holds the marker again after the prefix, the
    value of [priceRange] is not the remainder of the price: from
    [<price>[0,<price>999]] the code makes [[0,999]]. *)
Theorem price_range_loses_inner_marker (e : Env) :
  let q := __init__ (class_defaults e) (priced "<price>[0,<price>999]") in
  startswith (price q) "<price>" = true /\
  remainder "<price>" (price q) = "[0,<price>999]" /\
  sget (__dict__ e q) "priceRange" = Some (PStr "[0,999]") /\
  sget (__dict__ e q) "freeGame" = None.
Proof.
  repeat split; reflexivity.
Qed.

(** C9: the payload is a function of the fields of the instance, which
    are bound when it is constructed (the default [date] was computed
    when the class was); whenever and however often [__dict__] is read,
    the parameter set is the same, and both dates in it are the [date]
    of the instance. *)
Theorem dict_fixed_at_construction
    (e_import : Env) (kw : kwargs) (e1 e2 : Env) (runs : list Env) :
  let q := __init__ (class_defaults e_import) kw in
  __dict__ e1 q = __dict__ e2 q /\
  map (fun e => __dict__ e q) runs
    = repeat (__dict__ e1 q) (List.length runs) /\
  sget (__dict__ e1 q) "releaseDate" = Some (PStr (date q)) /\
  sget (__dict__ e1 q) "effectiveDate" = Some (PStr (date q)) /\
  date q = arg (kw_date kw) (date_expression e_import).
Proof.
  intros q. split; [reflexivity|]. split.
  { induction runs as [|e runs IH]; cbn [map repeat List.length];
      [reflexivity | now rewrite IH]. }
  split; [|split; [|reflexivity]];
    unfold __dict__;
    (destruct (String.eqb (price q) "free");
       [|destruct (startswith (price q) "<price>")]);
    destruct (onSale q); reflexivity.
Qed.

End BrowseProperties.

(* ================================================================== *)
(** * Properties of the game listing *)
(* ================================================================== *)

Section ShopGameProperties.
Import ShopModels ShopModels.ShopGame Samples.

(** The image set of the search document of the samples: the two known
    types are kept, the unknown one is dropped. *)
Example image_set_of_sample :
  ImageUrlModel.from_json
    (PList [ PDict [("type", PStr "Thumbnail"); ("url", PStr "a")];
             PDict [("type", PStr "DieselStoreFrontTall"); ("url", PStr "b")];
             PDict [("type", PStr "Unknown"); ("url", PStr "c")] ])
  = Ok (mkImageUrlModel (PStr "b") (PStr "") (PStr "a") (PStr "") (PStr "")).
Proof. reflexivity. Qed.

Example tags_of_sample :
  normalize_tags (PList [PStr "indie_game"; PStr "ACTION"])
  = Ok ["Indie game"; "Action"].
Proof. reflexivity. Qed.

(** A full parse: the [home] page is selected, the system block without
    a system type and the requirement without [recommended] are skipped,
    the developer comes from the custom attributes. *)
Example from_json_full_sample :
  from_json catalog_doc_full search_doc_full
  = Ok (mkShopGame (PStr "Game")
          (mkImageUrlModel (PStr "b") (PStr "") (PStr "a") (PStr "") (PStr ""))
          [("Twitter", PStr "https://twitter.example/game");
           ("Homepage", PStr "https://game.example")]
          PNone (PList [PStr "AUDIO: English"])
          [(PStr "Windows", [(PStr "OS", (PStr "Windows 7", PStr "Windows 10"))])]
          (PStr "Pub") (PStr "Dev") (PStr "19.99") (PStr "9.99")
          ["Indie game"; "Action"] (PStr "ns") (PStr "offer")).
Proof. vm_compute. reflexivity. Qed.

Lemma system_step_skips_untyped (reqs : reqs_dict) (s : list (string * pyval)) :
  sget s "systemType" = None -> system_step reqs (PDict s) = Ok reqs.
Proof.
  intros Hs. unfold system_step. cbn [subscript]. rewrite Hs. reflexivity.
Qed.

Lemma req_step_skips_incomplete (system st : pyval) (reqs : reqs_dict)
    (table : req_table) (r : list (string * pyval)) :
  subscript system "systemType" = Ok st ->
  getitem reqs st = Ok table ->
  sget r "title" = None \/ sget r "minimum" = None \/ sget r "recommended" = None ->
  req_step system reqs (PDict r) = Ok reqs.
Proof.
  intros Hst Htable Hmiss. unfold req_step. cbn [subscript].
  destruct (sget r "minimum") as [mn|]; [|reflexivity].
  destruct (sget r "recommended") as [rc|]; [|reflexivity].
  cbn [bind]. rewrite Hst. cbn [bind]. rewrite Htable. cbn [bind].
  destruct (sget r "title") as [t|]; [|reflexivity].
  destruct Hmiss as [H|[H|H]]; discriminate H.
Qed.

Lemma bind_Ok {A B} (m : result A) (k : A -> result B) (b : B) :
  bind m k = Ok b -> exists a, m = Ok a /\ k a = Ok b.
Proof.
  destruct m as [a|e]; cbn [bind]; intros H; [now exists a | discriminate H].
Qed.

Lemma subscript_Ok (v : pyval) (k : string) (x : pyval) :
  subscript v k = Ok x -> exists d, v = PDict d /\ sget d k = Some x.
Proof.
  destruct v; cbn [subscript]; try discriminate.
  destruct (sget d k) as [y|] eqn:Hy; [|discriminate].
  intros [= ->]. now exists d.
Qed.

Lemma get_or_Ok (v : pyval) (k : string) (dflt x : pyval) :
  get_or v k dflt = Ok x -> exists d, v = PDict d /\ x = opt_or (sget d k) dflt.
Proof.
  destruct v; cbn [get_or]; try discriminate.
  intros [= <-]. now exists d.
Qed.

(** ** Social links *)

Lemma sget_In_NoDup {V} (d : list (string * V)) (k : string) (v : V) :
  NoDup (map fst d) -> In (k, v) d -> sget d k = Some v.
Proof.
  induction d as [|[k' v'] d IH]; intros Hnd Hin; [contradiction|].
  inversion Hnd as [|? ? Hnotin Hnd']; subst.
  unfold sget in *. cbn [dict_get].
  destruct Hin as [Heq|Hin].
  - inversion Heq; subst. now rewrite String.eqb_refl.
  - destruct (String.eqb_spec k' k) as [->|Hne].
    + exfalso. apply Hnotin. change k with (fst (k, v)). now apply in_map.
    + now apply IH.
Qed.

Lemma for_each_link_step (d d' : list (string * pyval))
    (acc : list (string * pyval)) :
  (forall k v, In (k, v) d' -> sget d k = Some v) ->
  for_each (link_step (PDict d)) (map (fun kv => PStr (fst kv)) d') acc
  = Ok (acc ++ map link_pair (filter is_link d'))%list.
Proof.
  revert acc. induction d' as [|[k v] d' IH]; intros acc Hd; cbn [map for_each filter].
  - now rewrite app_nil_r.
  - unfold link_step at 1, is_link at 1. cbn [fst subscript].
    destruct (startswith k "link").
    + rewrite (Hd k v) by now left. cbn [bind map].
      rewrite IH by (intros; apply Hd; now right).
      now rewrite <- app_assoc.
    + cbn [bind]. apply IH. intros; apply Hd; now right.
Qed.

(** One pair for each key that starts with [link], in the order of the
    keys, and nothing for the others; the label is the key with every
    [link] replaced by nothing. *)
Lemma collect_links_dict (d : list (string * pyval)) :
  NoDup (map fst d) ->
  collect_links (PDict d) = Ok (map link_pair (filter is_link d)).
Proof.
  intros Hnd. unfold collect_links. cbn [iter bind].
  apply (for_each_link_step d d []).
  intros k v Hin. now apply sget_In_NoDup.
Qed.

(** The label is the rest of the key with the further [link]s taken out. *)
Lemma link_label_of_rest (k : string) :
  startswith k "link" = true ->
  replace "link" "" k = replace "link" "" (remainder "link" k).
Proof.
  intros Hk. rewrite (prefix_split "link" k Hk) at 1.
  now rewrite replace_prefix by discriminate.
Qed.

(** C7: at a key that holds [link] again after the prefix, the label is
    not the key without its prefix: from [linkBacklink] the code makes
    the label [Back], in [from_json] and in [__init__] alike. *)
Theorem link_label_loses_inner_link :
  remainder "link" "linkBacklink" = "Backlink" /\
  collect_links (PDict [("linkBacklink", PStr "https://example.org")])
    = Ok [("Back", PStr "https://example.org")] /\
  init_links (PDict [("linkBacklink", PStr "https://example.org")])
    = Ok [("Back", PStr "https://example.org")] /\
  exists g, from_json (PDict catalog_doc_backlink) (PDict search_doc) = Ok g /\
            links g = [("Back", PStr "https://example.org")].
Proof.
  repeat split; try reflexivity.
  eexists. split; reflexivity.
Qed.

End ShopGameProperties.

(* ================================================================== *)
(** * Properties of the floats *)
(* ================================================================== *)

Section DoubleProperties.
Import Double.
Local Open Scope Z_scope.

Lemma rne_ge (a b g : Z) : 0 < b -> g * b <= a -> g <= rne a b.
Proof.
  intros Hb Hg. unfold rne.
  assert (Hq : g <= a / b) by (apply Z.div_le_lower_bound; lia).
  destruct (2 * (a mod b) <? b); [exact Hq|].
  destruct (b <? 2 * (a mod b)); [lia|].
  destruct (Z.even (a / b)); lia.
Qed.

Lemma rne_le (a b g : Z) : 0 < b -> a <= g * b -> rne a b <= g.
Proof.
  intros Hb Hg. unfold rne.
  pose proof (Z.div_mod a b ltac:(lia)) as Hdm.
  pose proof (Z.mod_pos_bound a b Hb) as Hr.
  assert (Hq : a / b <= g) by (apply Z.div_le_upper_bound; lia).
  destruct (Z.ltb_spec (2 * (a mod b)) b) as [H1|H1]; [exact Hq|].
  assert (a / b < g) by nia.
  destruct (b <? 2 * (a mod b)); [lia|].
  destruct (Z.even (a / b)); lia.
Qed.

Lemma pow2_pos (k : Z) : 0 <= k -> 0 < 2 ^ k.
Proof. intros Hk. apply Z.pow_pos_nonneg; lia. Qed.

Lemma pow2_split (a b : Z) : 0 <= a -> 0 <= b -> 2 ^ (a + b) = 2 ^ a * 2 ^ b.
Proof. intros. apply Z.pow_add_r; assumption. Qed.

Lemma pow2_mono (a b : Z) : 0 <= a <= b -> 2 ^ a <= 2 ^ b.
Proof. intros H. apply Z.pow_le_mono_r; lia. Qed.

Lemma log2_bounds (a : Z) :
  0 < a -> 0 <= Z.log2 a /\ 2 ^ Z.log2 a <= a < 2 ^ (Z.log2 a + 1).
Proof.
  intros Ha. split; [apply Z.log2_nonneg|].
  pose proof (Z.log2_spec a Ha) as H. now rewrite <- Z.add_1_r in H.
Qed.

(** The lower half of what [mag] is: [2 ^ (mag - 1) <= |n| / d]. *)
Lemma mag_lower (n d : Z) :
  n <> 0 -> 0 < d -> 0 <= mag n d - 1 ->
  d * 2 ^ (mag n d - 1) <= Z.abs n.
Proof.
  intros Hn Hd. unfold mag, below_pow2.
  set (a := Z.abs n). assert (Ha : 0 < a) by (unfold a; lia).
  destruct (log2_bounds a Ha) as (Hla0 & Hla1 & Hla2).
  destruct (log2_bounds d Hd) as (Hld0 & Hld1 & Hld2).
  set (la := Z.log2 a) in *. set (ld := Z.log2 d) in *.
  destruct (Z.leb_spec 0 (la - ld)) as [Hk|Hk].
  - destruct (Z.ltb_spec a (d * 2 ^ (la - ld))) as [Hlt|Hge].
    + intros Hk1.
      assert (Hs : 2 ^ la = 2 ^ (ld + 1) * 2 ^ (la - ld - 1)).
      { rewrite <- pow2_split by lia. f_equal. lia. }
      assert (0 < 2 ^ (la - ld - 1)) by (apply pow2_pos; lia).
      nia.
    + intros _. replace (la - ld + 1 - 1) with (la - ld) by lia. exact Hge.
  - destruct (a * 2 ^ (- (la - ld)) <? d); intros Hk1; [lia|].
    replace (la - ld + 1 - 1) with (la - ld) in * by lia. lia.
Qed.

Lemma mag_small (n d : Z) :
  n <> 0 -> 0 < d -> Z.abs n < d * 2 ^ 33 -> mag n d <= 33.
Proof.
  intros Hn Hd Hlt.
  destruct (Z_le_gt_dec (mag n d) 33) as [H|H]; [exact H|].
  pose proof (mag_lower n d Hn Hd ltac:(lia)) as Hlow.
  pose proof (pow2_mono 33 (mag n d - 1) ltac:(lia)) as Hm.
  assert (0 < 2 ^ 33) by (apply pow2_pos; lia). nia.
Qed.

(** Rounding keeps a number between two numbers of the grid of
    [2 ^ -20] that are small enough to be floats. *)
Lemma round_within (n d L H : Z) :
  0 < d -> - 2 ^ 53 < L -> H < 2 ^ 53 ->
  L * d <= n * 2 ^ 20 <= H * d ->
  within L H (round n d).
Proof.
  intros Hd HL HH [Hlo Hhi]. unfold round, within.
  destruct (Z.eqb_spec n 0) as [->|Hn]; cbn [mant expo].
  - split; [lia|]. cbn. nia.
  - assert (Hsmall : Z.abs n < d * 2 ^ 33).
    { change (2 ^ 53) with 9007199254740992 in *.
      change (2 ^ 33) with 8589934592. change (2 ^ 20) with 1048576 in *.
      assert (H * d <= 9007199254740991 * d) by nia.
      assert (- 9007199254740991 * d <= L * d) by nia.
      lia. }
    pose proof (mag_small n d Hn Hd Hsmall) as Hmag.
    set (e := mag n d - 53) in *. assert (He : e <= -20) by lia.
    destruct (Z.leb_spec 0 e) as [?|_]; [lia|]. split; [lia|].
    set (P := 2 ^ (- e - 20)).
    assert (HP : 0 < P) by (apply pow2_pos; lia).
    assert (Hs : 2 ^ (- e) = P * 2 ^ 20).
    { unfold P. rewrite <- pow2_split by lia. f_equal. lia. }
    rewrite Hs.
    pose proof (rne_ge (n * (P * 2 ^ 20)) d (L * P) Hd ltac:(nia)).
    pose proof (rne_le (n * (P * 2 ^ 20)) d (H * P) Hd ltac:(nia)).
    nia.
Qed.

Lemma of_int_60 : of_int 60 = mkFloat (60 * 2 ^ 47) (- 47).
Proof. reflexivity. Qed.

(** Subtracting 60 moves the two bounds by 60. *)
Lemma sub_60_within (x : float) (L H : Z) :
  within L H x ->
  - 2 ^ 53 < L - 60 * 2 ^ 20 -> H - 60 * 2 ^ 20 < 2 ^ 53 ->
  within (L - 60 * 2 ^ 20) (H - 60 * 2 ^ 20) (sub x (of_int 60)).
Proof.
  intros [He [Hlo Hhi]] HL HH. rewrite of_int_60. unfold sub. cbn [mant expo].
  set (e0 := Z.min (expo x) (- 47)).
  assert (He0 : e0 <= -47) by (unfold e0; lia).
  destruct (Z.leb_spec 0 e0) as [?|_]; [lia|].
  set (A := 2 ^ (expo x - e0)). set (B := 2 ^ (- 47 - e0)).
  assert (HA : 0 < A) by (apply pow2_pos; unfold e0; lia).
  assert (HD : 2 ^ (- e0) = 2 ^ (- expo x) * A).
  { unfold A. rewrite <- pow2_split by (unfold e0; lia). f_equal. lia. }
  assert (HB : 2 ^ 47 * B = 2 ^ (- e0)).
  { unfold B. rewrite <- pow2_split by lia. f_equal. lia. }
  assert (HX : 0 < 2 ^ (- expo x)) by (apply pow2_pos; lia).
  apply round_within; try assumption.
  - rewrite HD. nia.
  - replace (60 * 2 ^ 47 * B) with (60 * (2 ^ 47 * B)) by ring.
    rewrite HB, HD. split; nia.
Qed.

(** [int] of a float between two neighbouring integers *)
Lemma trunc_within (x : float) (L H Z : Z) :
  within L H x ->
  (0 <= Z /\ Z * 2 ^ 20 <= L /\ H < (Z + 1) * 2 ^ 20) \/
  (Z <= 0 /\ (Z - 1) * 2 ^ 20 < L /\ H <= Z * 2 ^ 20) ->
  trunc x = Z.
Proof.
  intros [He [Hlo Hhi]] Hcase. unfold trunc.
  assert (HX : 0 < 2 ^ (- expo x)) by (apply pow2_pos; lia).
  change (2 ^ 20) with 1048576 in *.
  destruct (Z.leb_spec 0 (expo x)) as [H0|Hneg].
  - assert (E : expo x = 0) by lia. rewrite E in *.
    change (2 ^ (- 0)) with 1 in *. change (2 ^ 0) with 1. lia.
  - set (S := 2 ^ (- expo x)) in *. destruct Hcase as [(HZ & HL1 & HH1)|(HZ & HL1 & HH1)].
    + assert (Hm : Z * S <= mant x < (Z + 1) * S) by nia.
      rewrite Z.quot_div_nonneg by nia.
      symmetry. apply (Z.div_unique _ _ _ (mant x - Z * S)); nia.
    + assert (Hm : (Z - 1) * S < mant x <= Z * S) by nia.
      replace (mant x) with (- (- mant x)) by lia.
      rewrite Z.quot_opp_l by lia.
      rewrite Z.quot_div_nonneg by nia.
      assert (Hq : - mant x / S = - Z).
      { symmetry. apply (Z.div_unique _ _ _ (- mant x - (- Z) * S)); nia. }
      lia.
Qed.

(** For every span under 2 ^ 33 seconds the floats of
    [int(td.total_seconds() - 60)] give the whole seconds of [td - 60s]:
    the quotient is at least 2 ^ -20 away from the next integer unless it
    is one, and so are its float and the float of the difference. *)
Lemma int_total_seconds_less_60 (td : Z) :
  0 <= td < 2 ^ 33 * 1000000 ->
  trunc (sub (div_int td 1000000) (of_int 60))
  = Z.quot (td - 60 * 1000000) 1000000.
Proof.
  intros [Htd0 Htd1]. change (2 ^ 33) with 8589934592 in Htd1.
  pose proof (Z.div_mod td 1000000 ltac:(lia)) as Hdm.
  pose proof (Z.mod_pos_bound td 1000000 ltac:(lia)) as Hr.
  set (W := td / 1000000) in *. set (r := td mod 1000000) in *.
  assert (HW : 0 <= W < 8589934592) by lia.
  destruct (Z.eq_dec r 0) as [Hr0|Hr0].
  - (* a whole number of seconds: every step is exact *)
    assert (Hx : within (W * 2 ^ 20) (W * 2 ^ 20) (div_int td 1000000)).
    { apply round_within; change (2 ^ 53) with 9007199254740992;
        change (2 ^ 20) with 1048576; lia. }
    pose proof (sub_60_within _ _ _ Hx) as Hy.
    change (2 ^ 53) with 9007199254740992 in Hy.
    change (2 ^ 20) with 1048576 in Hy.
    specialize (Hy ltac:(lia) ltac:(lia)).
    rewrite (trunc_within _ _ _ (W - 60) Hy)
      by (change (2 ^ 20) with 1048576; lia).
    replace (td - 60 * 1000000) with ((W - 60) * 1000000) by lia.
    now rewrite Z.quot_mul by lia.
  - assert (Hx : within (W * 2 ^ 20 + 1) ((W + 1) * 2 ^ 20 - 1)
                        (div_int td 1000000)).
    { apply round_within; change (2 ^ 53) with 9007199254740992;
        change (2 ^ 20) with 1048576; lia. }
    pose proof (sub_60_within _ _ _ Hx) as Hy.
    change (2 ^ 53) with 9007199254740992 in Hy.
    change (2 ^ 20) with 1048576 in Hy.
    specialize (Hy ltac:(lia) ltac:(lia)).
    destruct (Z_le_gt_dec 60 W) as [Hge|Hlt].
    + rewrite (trunc_within _ _ _ (W - 60) Hy)
        by (change (2 ^ 20) with 1048576; lia).
      rewrite Z.quot_div_nonneg by lia.
      apply (Z.div_unique _ _ _ r); lia.
    + rewrite (trunc_within _ _ _ (W - 59) Hy)
        by (change (2 ^ 20) with 1048576; lia).
      replace (td - 60 * 1000000) with (- (60 * 1000000 - td)) by lia.
      rewrite Z.quot_opp_l by lia. rewrite Z.quot_div_nonneg by lia.
      assert (Hq : (60 * 1000000 - td) / 1000000 = 59 - W).
      { symmetry. apply (Z.div_unique _ _ _ (1000000 - r)); lia. }
      lia.
Qed.

(** Rounding does not go below an integer that is a float. *)
Lemma round_at_least (n d W : Z) :
  0 < d -> 0 < W <= 2 ^ 52 -> W * d <= n -> at_least W (round n d).
Proof.
  intros Hd [HW0 HW1] Hn. assert (Hpos : 0 < n) by nia.
  unfold round, at_least.
  destruct (Z.eqb_spec n 0) as [?|Hn0]; [lia|]. cbn [mant expo].
  set (e := mag n d - 53).
  destruct (Z.leb_spec 0 e) as [He|He].
  - pose proof (mag_lower n d Hn0 Hd ltac:(lia)) as Hlow.
    rewrite Z.abs_eq in Hlow by lia.
    assert (Hs : 2 ^ (mag n d - 1) = 2 ^ 52 * 2 ^ e).
    { rewrite <- pow2_split by lia. f_equal. lia. }
    rewrite Hs in Hlow.
    assert (HE : 0 < 2 ^ e) by (apply pow2_pos; lia).
    pose proof (rne_ge n (d * 2 ^ e) (2 ^ 52) ltac:(nia) ltac:(nia)) as Hm.
    nia.
  - assert (HE : 0 < 2 ^ (- e)) by (apply pow2_pos; lia).
    apply rne_ge; [exact Hd | nia].
Qed.

Lemma sub_60_at_least (x : float) (W : Z) :
  at_least W x -> 60 < W <= 2 ^ 52 ->
  at_least (W - 60) (sub x (of_int 60)).
Proof.
  intros Hx [HW0 HW1]. rewrite of_int_60. unfold sub. cbn [mant expo].
  set (e0 := Z.min (expo x) (- 47)).
  assert (He0 : e0 <= -47) by (unfold e0; lia).
  destruct (Z.leb_spec 0 e0) as [?|_]; [lia|].
  assert (HB : 2 ^ 47 * 2 ^ (- 47 - e0) = 2 ^ (- e0)).
  { rewrite <- pow2_split by lia. f_equal. lia. }
  assert (HD : 0 < 2 ^ (- e0)) by (apply pow2_pos; lia).
  apply round_at_least; [exact HD | lia |].
  replace (60 * 2 ^ 47 * 2 ^ (- 47 - e0)) with (60 * (2 ^ 47 * 2 ^ (- 47 - e0)))
    by ring.
  rewrite HB. unfold at_least in Hx.
  destruct (Z.leb_spec 0 (expo x)) as [Hp|Hn].
  - assert (E : e0 = - 47) by (unfold e0; lia). rewrite E in *.
    replace (expo x - - 47) with (expo x + 47) by lia.
    rewrite pow2_split by lia. change (2 ^ (- - 47)) with (2 ^ 47) in *.
    assert (0 < 2 ^ 47) by (apply pow2_pos; lia). nia.
  - assert (HS : 2 ^ (- e0) = 2 ^ (- expo x) * 2 ^ (expo x - e0)).
    { rewrite <- pow2_split by (unfold e0; lia). f_equal. lia. }
    assert (HA : 0 < 2 ^ (expo x - e0)) by (apply pow2_pos; unfold e0; lia).
    rewrite HS. nia.
Qed.

Lemma trunc_at_least (x : float) (W : Z) :
  at_least W x -> 0 <= W -> W <= trunc x.
Proof.
  unfold at_least, trunc. intros Hx HW.
  destruct (Z.leb_spec 0 (expo x)) as [Hp|Hn]; [exact Hx|].
  assert (HS : 0 < 2 ^ (- expo x)) by (apply pow2_pos; lia).
  rewrite Z.quot_div_nonneg by nia.
  apply Z.div_le_lower_bound; [exact HS | lia].
Qed.

(** From 2147544 seconds on, the milliseconds no longer fit 32 bits. *)
Lemma int_total_seconds_large (td : Z) :
  2147544 * 1000000 <= td ->
  2147483647 < trunc (sub (div_int td 1000000) (of_int 60)) * 1000.
Proof.
  intros Htd.
  assert (H52 : 2 ^ 52 = 4503599627370496) by reflexivity.
  assert (Hx : at_least 2147544 (div_int td 1000000))
    by (apply round_at_least; lia).
  pose proof (sub_60_at_least _ _ Hx ltac:(lia)) as Hy.
  pose proof (trunc_at_least _ _ Hy ltac:(lia)). lia.
Qed.

(** ** The model is round-to-nearest, ties to even, at 53 bits *)

Lemma rne_nearest (a b : Z) : 0 < b -> Z.abs (2 * (a - rne a b * b)) <= b.
Proof.
  intros Hb. unfold rne.
  pose proof (Z.div_mod a b ltac:(lia)) as Hdm.
  pose proof (Z.mod_pos_bound a b Hb) as Hr.
  destruct (Z.ltb_spec (2 * (a mod b)) b) as [H1|H1]; [nia|].
  destruct (Z.ltb_spec b (2 * (a mod b))) as [H2|H2]; [nia|].
  destruct (Z.even (a / b)); nia.
Qed.

Lemma rne_tie_even (a b : Z) :
  0 < b -> 2 * (a mod b) = b -> Z.even (rne a b) = true.
Proof.
  intros Hb Ht. unfold rne. rewrite Ht, Z.ltb_irrefl.
  destruct (Z.even (a / b)) eqn:Hev; [exact Hev|].
  rewrite Z.even_add, Hev. reflexivity.
Qed.

(** The upper half of what [mag] is: [|n| / d < 2 ^ mag]. *)
Lemma mag_upper (n d : Z) :
  n <> 0 -> 0 < d ->
  if 0 <=? mag n d then Z.abs n < d * 2 ^ mag n d
  else Z.abs n * 2 ^ (- mag n d) < d.
Proof.
  intros Hn Hd. unfold mag, below_pow2.
  set (a := Z.abs n). assert (Ha : 0 < a) by (unfold a; lia).
  destruct (log2_bounds a Ha) as (Hla0 & Hla1 & Hla2).
  destruct (log2_bounds d Hd) as (Hld0 & Hld1 & Hld2).
  set (la := Z.log2 a) in *. set (ld := Z.log2 d) in *.
  destruct (Z.leb_spec 0 (la - ld)) as [Hk|Hk].
  - destruct (Z.ltb_spec a (d * 2 ^ (la - ld))) as [Hlt|Hge].
    + destruct (Z.leb_spec 0 (la - ld)); [exact Hlt | lia].
    + destruct (Z.leb_spec 0 (la - ld + 1)); [|lia].
      assert (Hs : 2 ^ (la + 1) = 2 ^ ld * 2 ^ (la - ld + 1)).
      { rewrite <- pow2_split by lia. f_equal. lia. }
      assert (0 < 2 ^ (la - ld + 1)) by (apply pow2_pos; lia). nia.
  - destruct (Z.ltb_spec (a * 2 ^ (- (la - ld))) d) as [Hlt|Hge].
    + destruct (Z.leb_spec 0 (la - ld)); [lia | exact Hlt].
    + assert (Hs : 2 ^ ld = 2 ^ (la + 1) * 2 ^ (ld - la - 1)).
      { rewrite <- pow2_split by lia. f_equal. lia. }
      assert (0 < 2 ^ (ld - la - 1)) by (apply pow2_pos; lia).
      destruct (Z.leb_spec 0 (la - ld + 1)) as [H0|H0].
      * assert (E : la - ld + 1 = 0) by lia. rewrite E. cbn. nia.
      * replace (- (la - ld + 1)) with (ld - la - 1) by lia. nia.
Qed.

(** The lower half below one: [2 ^ (mag - 1) <= |n| / d] for [mag <= 0]. *)
Lemma mag_lower_neg (n d : Z) :
  n <> 0 -> 0 < d -> mag n d - 1 < 0 ->
  d <= Z.abs n * 2 ^ (1 - mag n d).
Proof.
  intros Hn Hd. unfold mag, below_pow2.
  set (a := Z.abs n). assert (Ha : 0 < a) by (unfold a; lia).
  destruct (log2_bounds a Ha) as (Hla0 & Hla1 & Hla2).
  destruct (log2_bounds d Hd) as (Hld0 & Hld1 & Hld2).
  set (la := Z.log2 a) in *. set (ld := Z.log2 d) in *.
  destruct (Z.leb_spec 0 (la - ld)) as [Hk|Hk].
  - destruct (Z.ltb_spec a (d * 2 ^ (la - ld))) as [Hlt|Hge]; intros Hm; [|lia].
    assert (E : la - ld = 0) by lia. rewrite E.
    change (2 ^ (1 - 0)) with 2.
    assert (Hs : 2 ^ (ld + 1) = 2 ^ ld * 2)
      by (rewrite pow2_split by lia; reflexivity).
    assert (El : ld = la) by lia. rewrite El in *. lia.
  - destruct (Z.ltb_spec (a * 2 ^ (- (la - ld))) d) as [Hlt|Hge]; intros Hm.
    + assert (Hs : 2 ^ (1 - (la - ld)) = 2 ^ (ld + 1 - la))
        by (f_equal; lia).
      rewrite Hs.
      assert (Hs2 : 2 ^ (ld + 1) = 2 ^ la * 2 ^ (ld + 1 - la)).
      { rewrite <- pow2_split by lia. f_equal. lia. }
      assert (0 < 2 ^ (ld + 1 - la)) by (apply pow2_pos; lia). nia.
    + replace (1 - (la - ld + 1)) with (- (la - ld)) by lia. exact Hge.
Qed.

(** The value [round] returns is within half a unit in the last place
    of [n / d], and its mantissa has 53 bits. *)
Lemma round_nearest (n d : Z) :
  n <> 0 -> 0 < d ->
  let x := round n d in
  (if 0 <=? expo x
   then Z.abs (2 * (n - mant x * (d * 2 ^ expo x))) <= d * 2 ^ expo x
   else Z.abs (2 * (n * 2 ^ (- expo x) - mant x * d)) <= d) /\
  2 ^ 52 <= Z.abs (mant x) <= 2 ^ 53.
Proof.
  intros Hn Hd. cbn zeta. unfold round.
  destruct (Z.eqb_spec n 0) as [?|_]; [contradiction|]. cbn [mant expo].
  set (e := mag n d - 53).
  pose proof (mag_upper n d Hn Hd) as Hup.
  assert (H52 : 2 ^ 53 = 2 * 2 ^ 52) by reflexivity.
  assert (P52 : 0 < 2 ^ 52) by (apply pow2_pos; lia).
  destruct (Z.leb_spec 0 e) as [He|He].
  - assert (HE : 0 < 2 ^ e) by (apply pow2_pos; lia).
    split; [apply rne_nearest; nia|].
    pose proof (mag_lower n d Hn Hd ltac:(lia)) as Hlow.
    destruct (Z.leb_spec 0 (mag n d)) as [_|?]; [|lia].
    assert (Hs : 2 ^ (mag n d - 1) = 2 ^ 52 * 2 ^ e).
    { rewrite <- pow2_split by lia. f_equal. lia. }
    assert (Hs' : 2 ^ mag n d = 2 ^ 53 * 2 ^ e).
    { rewrite <- pow2_split by lia. f_equal. lia. }
    rewrite Hs in Hlow. rewrite Hs' in Hup.
    destruct (Z_lt_le_dec n 0) as [Hneg|Hpos].
    + rewrite Z.abs_neq in Hlow, Hup by lia.
      pose proof (rne_le n (d * 2 ^ e) (- 2 ^ 52) ltac:(nia) ltac:(nia)).
      pose proof (rne_ge n (d * 2 ^ e) (- 2 ^ 53) ltac:(nia) ltac:(nia)).
      lia.
    + rewrite Z.abs_eq in Hlow, Hup by lia.
      pose proof (rne_ge n (d * 2 ^ e) (2 ^ 52) ltac:(nia) ltac:(nia)).
      pose proof (rne_le n (d * 2 ^ e) (2 ^ 53) ltac:(nia) ltac:(nia)).
      lia.
  - assert (HE : 0 < 2 ^ (- e)) by (apply pow2_pos; lia).
    split; [apply rne_nearest; exact Hd|].
    assert (Hlow : d * 2 ^ 52 <= Z.abs n * 2 ^ (- e)).
    { destruct (Z_le_gt_dec 1 (mag n d)) as [Hm|Hm].
      - pose proof (mag_lower n d Hn Hd ltac:(lia)) as Hl.
        assert (Hs : 2 ^ 52 = 2 ^ (mag n d - 1) * 2 ^ (- e)).
        { rewrite <- pow2_split by lia. f_equal. lia. }
        rewrite Hs. nia.
      - pose proof (mag_lower_neg n d Hn Hd ltac:(lia)) as Hl.
        assert (Hs : 2 ^ (- e) = 2 ^ (1 - mag n d) * 2 ^ 52).
        { rewrite <- pow2_split by lia. f_equal. lia. }
        rewrite Hs. nia. }
    assert (Hupp : Z.abs n * 2 ^ (- e) <= d * 2 ^ 53).
    { destruct (Z.leb_spec 0 (mag n d)) as [Hm|Hm].
      - assert (Hs : 2 ^ 53 = 2 ^ (mag n d) * 2 ^ (- e)).
        { rewrite <- pow2_split by lia. f_equal. lia. }
        rewrite Hs. nia.
      - assert (Hs : 2 ^ (- e) = 2 ^ (- mag n d) * 2 ^ 53).
        { rewrite <- pow2_split by lia. f_equal. lia. }
        rewrite Hs. assert (0 < 2 ^ 53) by (apply pow2_pos; lia). nia. }
    destruct (Z_lt_le_dec n 0) as [Hneg|Hpos].
    + rewrite Z.abs_neq in Hlow, Hupp by lia.
      pose proof (rne_le (n * 2 ^ (- e)) d (- 2 ^ 52) Hd ltac:(nia)).
      pose proof (rne_ge (n * 2 ^ (- e)) d (- 2 ^ 53) Hd ltac:(nia)).
      lia.
    + rewrite Z.abs_eq in Hlow, Hupp by lia.
      pose proof (rne_ge (n * 2 ^ (- e)) d (2 ^ 52) Hd ltac:(nia)).
      pose proof (rne_le (n * 2 ^ (- e)) d (2 ^ 53) Hd ltac:(nia)).
      lia.
Qed.

End DoubleProperties.

(* ================================================================== *)
(** * Properties of the session timer *)
(* ================================================================== *)

Section SessionProperties.
Import RareApp RareApp.App.
Local Open Scope Z_scope.
Context {W : Type} {E : Externals W}.

(** The whole seconds of [td - 60s], for a distance [td] the timer can
    be started for *)
Lemma int_of_seconds_bounds (td : Z) :
  0 <= td < 2147544 * 1000000 ->
  -60 <= int_of_seconds (td - 60 * 1000000) <= 2147483.
Proof.
  intros [H0 H1]. unfold int_of_seconds.
  pose proof (Z.quot_rem' (td - 60 * 1000000) 1000000) as Hqr.
  assert (Hpos : 0 <= td - 60 * 1000000 ->
                 0 <= Z.rem (td - 60 * 1000000) 1000000 < 1000000)
    by (intros H; apply Z.rem_bound_pos; lia).
  assert (Hneg : td - 60 * 1000000 < 0 ->
                 -1000000 < Z.rem (td - 60 * 1000000) 1000000 <= 0)
    by (intros H;
        pose proof (Z.rem_bound_pos_neg (td - 60 * 1000000) 1000000); lia).
  lia.
Qed.

(** What both places hand to [QTimer.start], within the range of the
    timer and beyond it *)
Lemma timer_start_in_range (w : W) (td : Z) :
  0 <= td < 2147544 * 1000000 ->
  timer_start w
    (Double.trunc (Double.sub (total_seconds td) (Double.of_int 60)) * 1000)
  = Ok (mkApp w (Some (int_of_seconds (td - 60 * 1000000) * 1000))).
Proof.
  intros Htd. unfold total_seconds.
  rewrite int_total_seconds_less_60
    by (change (2 ^ 33) with 8589934592; lia).
  fold (int_of_seconds (td - 60 * 1000000)).
  pose proof (int_of_seconds_bounds td Htd) as Hb.
  unfold timer_start.
  destruct (Z.leb_spec (-2147483648) (int_of_seconds (td - 60 * 1000000) * 1000));
    [|lia].
  destruct (Z.leb_spec (int_of_seconds (td - 60 * 1000000) * 1000) 2147483647);
    [reflexivity|lia].
Qed.

Lemma timer_start_out_of_range (w : W) (td : Z) :
  2147544 * 1000000 <= td ->
  timer_start w
    (Double.trunc (Double.sub (total_seconds td) (Double.of_int 60)) * 1000)
  = Raise OverflowError.
Proof.
  intros Htd. unfold total_seconds.
  pose proof (int_total_seconds_large td Htd) as Hbig.
  unfold timer_start.
  destruct (Z.leb_spec
              (Double.trunc (Double.sub (Double.div_int td 1000000)
                                        (Double.of_int 60)) * 1000)
              2147483647) as [Hle|_]; [lia|].
  now rewrite andb_false_r.
Qed.

Lemma init_delay (w : W) (utcnow dt_exp : timestamp) :
  fromisoformat (drop_last (expires_at w)) = Some dt_exp ->
  Z.abs (dt_exp - utcnow) < 2147544 * 1000000 ->
  __init__ w utcnow = Ok (mkApp w (Some (renewal_delay_ms dt_exp utcnow))).
Proof.
  intros Hexp Hr. unfold __init__, parse_iso. rewrite Hexp. cbn [bind].
  apply timer_start_in_range. lia.
Qed.

Lemma init_overflow (w : W) (utcnow dt_exp : timestamp) :
  fromisoformat (drop_last (expires_at w)) = Some dt_exp ->
  2147544 * 1000000 <= Z.abs (dt_exp - utcnow) ->
  __init__ w utcnow = Raise OverflowError.
Proof.
  intros Hexp Hr. unfold __init__, parse_iso. rewrite Hexp. cbn [bind].
  now apply timer_start_out_of_range.
Qed.

Lemma re_login_delay (self : App W) (w : W) (utcnow dt_exp : timestamp) :
  core_login (world self) = (w, None) ->
  fromisoformat (drop_last (expires_at w)) = Some dt_exp ->
  Z.abs (dt_exp - utcnow) < 2147544 * 1000000 ->
  re_login self utcnow = Ok (mkApp w (Some (renewal_delay_ms dt_exp utcnow))).
Proof.
  intros Hlogin Hexp Hr. unfold re_login, parse_iso. rewrite Hlogin, Hexp.
  cbn [bind]. apply timer_start_in_range. lia.
Qed.

Lemma re_login_overflow (self : App W) (w : W) (utcnow dt_exp : timestamp) :
  core_login (world self) = (w, None) ->
  fromisoformat (drop_last (expires_at w)) = Some dt_exp ->
  2147544 * 1000000 <= Z.abs (dt_exp - utcnow) ->
  re_login self utcnow = Raise OverflowError.
Proof.
  intros Hlogin Hexp Hr. unfold re_login, parse_iso. rewrite Hlogin, Hexp.
  cbn [bind]. now apply timer_start_out_of_range.
Qed.

Lemma renewal_delay_whole_seconds (dt_exp dt_now : timestamp) :
  dt_now <= dt_exp ->
  (1000000 | dt_exp - dt_now) ->
  renewal_delay_ms dt_exp dt_now * 1000 = specified_delay_us dt_exp dt_now.
Proof.
  intros Hle [k Hk]. unfold renewal_delay_ms, specified_delay_us, int_of_seconds.
  rewrite Z.abs_eq by lia. rewrite Hk.
  replace (k * 1000000 - 60 * 1000000) with ((k - 60) * 1000000) by lia.
  rewrite Z.quot_mul by lia. lia.
Qed.

(** Beyond the range of the timer the floats no longer give the whole
    seconds: for the longest span of the calendar, 253402300799.999999 s,
    the quotient rounds up to the next second. *)
Example float_seconds_round_up :
  Double.trunc (Double.sub (total_seconds 253402300799999999) (Double.of_int 60))
    = 253402300740 /\
  int_of_seconds (253402300799999999 - 60 * 1000000) = 253402300739.
Proof. split; vm_compute; reflexivity. Qed.

(** C2 (amended): after the login of [__init__] and after every renewal
    that succeeds, [QTimer.start] is called with the same function of
    the expiry (the timestamp without its last character) and the clock.
    When they are less than 2147544 s apart the timer is started with
    1000 ms times the whole seconds of the distance between them less
    60 s (the floats of the code give exactly that), which is
    [expires_at - now - 60s] when the expiry lies ahead by a whole
    number of seconds; from 2147544 s on the milliseconds do not fit
    the argument of [QTimer.start] and both places end in
    [OverflowError]. *)
Theorem timer_delay_after_login (w : W) (self : App W)
    (utcnow dt_exp : timestamp) :
  fromisoformat (drop_last (expires_at w)) = Some dt_exp ->
  (Z.abs (dt_exp - utcnow) < 2147544 * 1000000 ->
   __init__ w utcnow = Ok (mkApp w (Some (renewal_delay_ms dt_exp utcnow))) /\
   (core_login (world self) = (w, None) ->
    re_login self utcnow = Ok (mkApp w (Some (renewal_delay_ms dt_exp utcnow)))) /\
   -60000 <= renewal_delay_ms dt_exp utcnow <= 2147483000 /\
   (utcnow <= dt_exp -> (1000000 | dt_exp - utcnow) ->
    renewal_delay_ms dt_exp utcnow * 1000 = specified_delay_us dt_exp utcnow)) /\
  (2147544 * 1000000 <= Z.abs (dt_exp - utcnow) ->
   __init__ w utcnow = Raise OverflowError /\
   (core_login (world self) = (w, None) ->
    re_login self utcnow = Raise OverflowError)).
Proof.
  intros Hexp. split.
  - intros Hr. split; [now apply init_delay|]. split; [|split].
    + intros Hlogin. now apply re_login_delay.
    + pose proof (int_of_seconds_bounds (Z.abs (dt_exp - utcnow))) as Hb.
      unfold renewal_delay_ms. lia.
    + apply renewal_delay_whole_seconds.
  - intros Hr. split; [now apply (init_overflow w utcnow dt_exp)|].
    intros Hlogin. now apply (re_login_overflow self w utcnow dt_exp).
Qed.

(** C5: when [core.login()] raises [ConnectionError], [re_login] returns
    normally with the timer started at 3000 ms and the world as the
    failed login left it; it reads neither the expiry nor the clock. *)
Theorem re_login_retries_on_connection_error (self : App W) (w : W)
    (utcnow : timestamp) :
  core_login (world self) = (w, Some ConnectionError) ->
  re_login self utcnow = Ok (mkApp w (Some 3000)) /\
  (forall utcnow', re_login self utcnow' = re_login self utcnow).
Proof.
  intros Hlogin. unfold re_login. rewrite Hlogin. split; reflexivity.
Qed.

End SessionProperties.

Section SessionSamples.
Import RareApp RareApp.App Samples Sim.
Local Open Scope Z_scope.

(** C2, as the claim states it, fails: for a session already expired 200
    seconds ago the timer is started with 140 s, where [expires_at - now
    - 60s] is -260 s (in [__init__] and in [re_login] alike); and with
    the expiry 99.5 s ahead it is started with 39 s, not 39.5 s. *)
Lemma timer_delay_is_not_expiry_minus_now :
  __init__ expired_session 200000000
    = Ok (mkApp expired_session (Some 140000)) /\
  timer_of (re_login (mkApp expired_session None) 200000000) = Some 140000 /\
  specified_delay_us 0 200000000 = -260000000 /\
  __init__ short_session 500000 = Ok (mkApp short_session (Some 39000)) /\
  specified_delay_us 100000000 500000 = 39500000.
Proof. repeat split; reflexivity. Qed.

Lemma timer_delay_after_login_witness :
  __init__ library 0 = Ok (mkApp library (Some 3540000)) /\
  __init__ long_session 0 = Raise OverflowError /\
  re_login (mkApp long_session None) 0 = Raise OverflowError.
Proof.
  split; [|split].
  - exact (proj1 (proj1 (timer_delay_after_login library (mkApp library None)
                           0 3600000000 eq_refl) eq_refl)).
  - refine (proj1 (proj2 (timer_delay_after_login long_session
                            (mkApp long_session None) 0 2678400000000 eq_refl)
                         _)).
    discriminate.
  - refine (proj2 (proj2 (timer_delay_after_login
                            (fst (Sim.sim_login long_session))
                            (mkApp long_session None) 0 2678400000000 eq_refl)
                         _) eq_refl).
    discriminate.
Defined.

Lemma re_login_retries_on_connection_error_witness :
  re_login (mkApp library None) 0
    = Ok (mkApp (fst (Sim.sim_login library)) (Some 3000)).
Proof.
  exact (proj1 (re_login_retries_on_connection_error (mkApp library None)
                  (fst (Sim.sim_login library)) 0 eq_refl)).
Defined.

(** The failed login of the sample keeps the session it had. *)
Example failed_login_keeps_session :
  Sim.session_expires_at (fst (Sim.sim_login library))
    = Sim.session_expires_at library.
Proof. reflexivity. Qed.

End SessionSamples.

(* ================================================================== *)
(** * Properties of the verification sweep *)
(* ================================================================== *)

Section SweepProperties.
Import RareApp RareApp.App.
Context {W : Type} {E : Externals W}.

(** Replacing one character by another is a map over the characters. *)
Lemma replace_char (a b : ascii) (s : string) :
  replace (String a "") (String b "") s
  = str_map (fun c => if Ascii.eqb c a then b else c) s.
Proof.
  unfold replace. induction s as [|c s IH]; [reflexivity|].
  cbn [replace_scan str_map String.prefix String.length Nat.sub].
  rewrite Ascii.eqb_sym.
  destruct (ascii_dec a c) as [->|Hne].
  - rewrite Ascii.eqb_refl.
    replace (String.prefix "" s) with true by now destruct s.
    cbn [String.append]. now rewrite IH.
  - destruct (Ascii.eqb_spec a c) as [Heq|_]; [contradiction|].
    now rewrite IH.
Qed.

Lemma lstrip_char_no_lead (c : ascii) (s : string) :
  startswith (lstrip_char c s) (String c "") = false.
Proof.
  induction s as [|a s IH]; [reflexivity|].
  cbn [lstrip_char]. destruct (Ascii.eqb_spec a c) as [->|Hne]; [exact IH|].
  unfold startswith. cbn [String.prefix].
  destruct (ascii_dec c a) as [Heq|_]; [now elim Hne|reflexivity].
Qed.

(** The normalized executable never starts with a separator, so the
    join is under the install path. *)
Lemma normalize_exe_relative (exe : string) :
  startswith (normalize_exe exe) "/" = false.
Proof. apply lstrip_char_no_lead. Qed.

Lemma effective_executable_override (w : W) (igame : InstalledGame) (o : string) :
  config_get w (app_name igame) "override_exe" = Some o -> o <> "" ->
  effective_executable w igame = o.
Proof.
  intros Hc Hne. unfold effective_executable. rewrite Hc. cbn [opt_or].
  destruct (String.eqb_spec o ""); [contradiction|reflexivity].
Qed.

Lemma effective_executable_default (w : W) (igame : InstalledGame) :
  config_get w (app_name igame) "override_exe" = None ->
  effective_executable w igame = executable igame.
Proof.
  intros Hc. unfold effective_executable. now rewrite Hc.
Qed.

(** ** One record *)

Lemma check_igame_missing_path (w : W) (igame : InstalledGame) :
  path_exists w (install_path igame) = false ->
  check_igame igame w
  = (igame, uninstall_game w (app_name igame) true, uninstalled_calls igame).
Proof.
  intros Hp. unfold check_igame, mbind, os_path_exists. rewrite Hp. reflexivity.
Qed.

Lemma check_igame_missing_executable (w : W) (igame : InstalledGame) :
  path_exists w (install_path igame) = true ->
  path_exists w (executable_path w igame) = false ->
  check_igame igame w
  = (set_needs_verification igame true,
     set_installed_game w (app_name igame) (set_needs_verification igame true),
     flagged_calls w igame).
Proof.
  intros Hp Hx. unfold check_igame, mbind, os_path_exists, config_get_fallback.
  rewrite Hp. cbn [negb].
  fold (opt_or (config_get w (app_name igame) "override_exe") "").
  fold (effective_executable w igame). fold (executable_path w igame).
  rewrite Hx. reflexivity.
Qed.

Lemma check_igame_present (w : W) (igame : InstalledGame) :
  path_exists w (install_path igame) = true ->
  path_exists w (executable_path w igame) = true ->
  check_igame igame w = (igame, w, lookup_calls w igame).
Proof.
  intros Hp Hx. unfold check_igame, mbind, os_path_exists, config_get_fallback.
  rewrite Hp. cbn [negb].
  fold (opt_or (config_get w (app_name igame) "override_exe") "").
  fold (effective_executable w igame). fold (executable_path w igame).
  rewrite Hx. reflexivity.
Qed.

(** ** The loop *)

Lemma sweep_cons (igame : InstalledGame) (rest : list InstalledGame) (w : W) :
  sweep (igame :: rest) w
  = let '(igame', w1, t1) := check_igame igame w in
    let '(rest', w2, t2) := sweep rest w1 in
    (igame' :: rest', w2, (t1 ++ t2)%list).
Proof.
  cbn [sweep]. unfold mbind, ret.
  destruct (check_igame igame w) as [[igame' w1] t1].
  destruct (sweep rest w1) as [[rest' w2] t2].
  now rewrite app_nil_r.
Qed.

Lemma sweep_app (before after : list InstalledGame) (w : W) :
  sweep (before ++ after) w
  = let '(done, w1, t1) := sweep before w in
    let '(rest, w2, t2) := sweep after w1 in
    ((done ++ rest)%list, w2, (t1 ++ t2)%list).
Proof.
  revert w. induction before as [|g before IH]; intros w.
  - cbn [app]. change (sweep [] w) with (@nil InstalledGame, w, @nil call).
    cbv beta iota. now destruct (sweep after w) as [[rest w2] t2].
  - cbn [app]. rewrite !sweep_cons.
    destruct (check_igame g w) as [[g' wg] tg]. rewrite IH.
    destruct (sweep before wg) as [[done w1] t1].
    destruct (sweep after w1) as [[rest w2] t2].
    now rewrite app_assoc.
Qed.

(** The turn of one record within the sweep of the whole list *)
Lemma sweep_at (before after : list InstalledGame) (igame igame' : InstalledGame)
    (w w1 w1' w2 : W) (done rest : list InstalledGame) (t1 t t2 : list call) :
  sweep before w = (done, w1, t1) ->
  check_igame igame w1 = (igame', w1', t) ->
  sweep after w1' = (rest, w2, t2) ->
  sweep (before ++ igame :: after) w
  = ((done ++ igame' :: rest)%list, w2, (t1 ++ t ++ t2)%list).
Proof.
  intros Hb Hc Ha. rewrite sweep_app, Hb, sweep_cons, Hc, Ha. reflexivity.
Qed.

(** C3: a record whose install path does not exist when the sweep gets
    to it is uninstalled with [keep_files] true; the turn makes no other
    call but the log (no lookup of the executable, no
    [set_installed_game]) and leaves the record as it was. *)
Theorem sweep_uninstalls_missing_path
    (before after : list InstalledGame) (igame : InstalledGame)
    (w w1 w2 : W) (done rest : list InstalledGame) (t1 t2 : list call) :
  get_installed_list w = (before ++ igame :: after)%list ->
  sweep before w = (done, w1, t1) ->
  path_exists w1 (install_path igame) = false ->
  sweep after (uninstall_game w1 (app_name igame) true) = (rest, w2, t2) ->
  start_app w
  = ((done ++ igame :: rest)%list, w2,
     (t1 ++ [ CallExists (install_path igame);
              CallUninstall (app_name igame) true;
              CallLogInfo ("Uninstalled " ++ title igame
                           ++ ", because no game files exist") ] ++ t2)%list).
Proof.
  intros Hl Hb Hp Ha. unfold start_app. rewrite Hl.
  eapply sweep_at;
    [exact Hb | apply check_igame_missing_path; exact Hp | exact Ha].
Qed.

(** C4: for a record whose install path exists, the sweep looks the
    override up, takes it when it is set and not empty and the
    executable of the record otherwise, turns backslashes into slashes,
    strips the leading slashes and joins the result to the install path;
    when that path does not exist, [needs_verification] becomes true and
    the changed record is handed to [set_installed_game]. *)
Theorem sweep_flags_missing_executable
    (before after : list InstalledGame) (igame : InstalledGame)
    (w w1 w2 : W) (done rest : list InstalledGame) (t1 t2 : list call) :
  get_installed_list w = (before ++ igame :: after)%list ->
  sweep before w = (done, w1, t1) ->
  path_exists w1 (install_path igame) = true ->
  path_exists w1 (executable_path w1 igame) = false ->
  sweep after (set_installed_game w1 (app_name igame)
                 (set_needs_verification igame true)) = (rest, w2, t2) ->
  start_app w
  = ((done ++ set_needs_verification igame true :: rest)%list, w2,
     (t1 ++ [ CallExists (install_path igame);
              CallConfigGet (app_name igame) "override_exe";
              CallExists (executable_path w1 igame);
              CallSetInstalled (app_name igame)
                               (set_needs_verification igame true);
              CallLogInfo (title igame ++ " needs verification") ] ++ t2)%list)
  /\ needs_verification (set_needs_verification igame true) = true
  /\ executable_path w1 igame
     = path_join (install_path igame)
         (lstrip_char "/"
            (str_map (fun c => if Ascii.eqb c (ascii_of_nat 92) then "/"%char else c)
                     (effective_executable w1 igame)))
  /\ (forall o, config_get w1 (app_name igame) "override_exe" = Some o ->
                o <> "" -> effective_executable w1 igame = o)
  /\ (config_get w1 (app_name igame) "override_exe" = None ->
      effective_executable w1 igame = executable igame).
Proof.
  intros Hl Hb Hp Hx Ha. split; [|split; [reflexivity|split; [|split]]].
  - unfold start_app. rewrite Hl.
    eapply sweep_at;
      [exact Hb | apply check_igame_missing_executable; assumption | exact Ha].
  - unfold executable_path, normalize_exe, backslash.
    now rewrite (replace_char (ascii_of_nat 92) "/").
  - intros o. apply effective_executable_override.
  - apply effective_executable_default.
Qed.

(** C10: a record whose install path and executable both exist goes
    through the sweep unchanged, its flag included; the turn only looks
    things up (two existence checks and the override), the world it
    hands on is the one it found. *)
Theorem sweep_keeps_present_game
    (before after : list InstalledGame) (igame : InstalledGame)
    (w w1 w2 : W) (done rest : list InstalledGame) (t1 t2 : list call) :
  get_installed_list w = (before ++ igame :: after)%list ->
  sweep before w = (done, w1, t1) ->
  path_exists w1 (install_path igame) = true ->
  path_exists w1 (executable_path w1 igame) = true ->
  sweep after w1 = (rest, w2, t2) ->
  start_app w
  = ((done ++ igame :: rest)%list, w2,
     (t1 ++ [ CallExists (install_path igame);
              CallConfigGet (app_name igame) "override_exe";
              CallExists (executable_path w1 igame) ] ++ t2)%list).
Proof.
  intros Hl Hb Hp Hx Ha. unfold start_app. rewrite Hl.
  eapply sweep_at;
    [exact Hb | apply check_igame_present; assumption | exact Ha].
Qed.

End SweepProperties.

Section SweepSamples.
Import RareApp RareApp.App Samples Sim.

Lemma sweep_uninstalls_missing_path_witness :
  start_app library
  = ([set_needs_verification game_a true; game_b; game_c],
     sim_uninstall_game
       (sim_set_installed_game library "A" (set_needs_verification game_a true))
       "B" true,
     (flagged_calls library game_a ++ uninstalled_calls game_b
        ++ lookup_calls library game_c)%list).
Proof.
  exact (sweep_uninstalls_missing_path (W := sim)
           [game_a] [game_c] game_b library
           (sim_set_installed_game library "A" (set_needs_verification game_a true))
           (sim_uninstall_game
              (sim_set_installed_game library "A"
                 (set_needs_verification game_a true)) "B" true)
           [set_needs_verification game_a true] [game_c]
           (flagged_calls library game_a) (lookup_calls library game_c)
           eq_refl eq_refl eq_refl eq_refl).
Defined.

Lemma sweep_flags_missing_executable_witness :
  start_app (library_of [game_b; game_a])
  = ([game_b; set_needs_verification game_a true],
     sim_set_installed_game
       (sim_uninstall_game (library_of [game_b; game_a]) "B" true)
       "A" (set_needs_verification game_a true),
     (uninstalled_calls game_b ++ flagged_calls library game_a)%list).
Proof.
  exact (proj1 (sweep_flags_missing_executable (W := sim)
           [game_b] [] game_a (library_of [game_b; game_a])
           (sim_uninstall_game (library_of [game_b; game_a]) "B" true)
           (sim_set_installed_game
              (sim_uninstall_game (library_of [game_b; game_a]) "B" true)
              "A" (set_needs_verification game_a true))
           [game_b] [] (uninstalled_calls game_b) []
           eq_refl eq_refl eq_refl eq_refl eq_refl)).
Defined.

Lemma sweep_keeps_present_game_witness :
  start_app (library_of [game_a; game_c])
  = ([set_needs_verification game_a true; game_c],
     sim_set_installed_game (library_of [game_a; game_c]) "A"
       (set_needs_verification game_a true),
     (flagged_calls library game_a ++ lookup_calls library game_c)%list).
Proof.
  exact (sweep_keeps_present_game (W := sim)
           [game_a] [] game_c (library_of [game_a; game_c])
           (sim_set_installed_game (library_of [game_a; game_c]) "A"
              (set_needs_verification game_a true))
           (sim_set_installed_game (library_of [game_a; game_c]) "A"
              (set_needs_verification game_a true))
           [set_needs_verification game_a true] []
           (flagged_calls library game_a) []
           eq_refl eq_refl eq_refl eq_refl eq_refl).
Defined.

End SweepSamples.

(* ================================================================== *)
(** * Properties of the restart loop *)
(* ================================================================== *)

Section RestartLoop.
Import RareApp RareApp.App.
Local Open Scope Z_scope.

Lemma start_restart (later : list Z) :
  start (restart_code :: later)
  = ((turn restart_code ++ fst (start later))%list, snd (start later)).
Proof.
  cbn [start]. rewrite Z.eqb_refl. cbn [negb].
  now destruct (start later).
Qed.

Lemma start_exit (exit_code : Z) (later : list Z) :
  exit_code <> restart_code ->
  start (exit_code :: later) = (turn exit_code, Returned).
Proof.
  intros Hne. cbn [start].
  destruct (Z.eqb_spec exit_code restart_code); [contradiction|reflexivity].
Qed.

(** C8: a run of the application that ends with -133742 is followed by
    [del app], [core.exit()] and [clear_singleton_instance(core)] and
    then by the whole startup again (a new core, the configuration
    handler, a new application); the first run that ends with another
    code is followed by the same teardown and the return of [start],
    whatever would have come later.  Every entry into the loop begins
    with the startup. *)
Theorem restart_loop_turns (n : nat) (exit_code : Z) (later : list Z) :
  exit_code <> -133742 ->
  start (repeat (-133742) n ++ exit_code :: later)
    = (flat_map (fun code => [ CoreInit; InitConfigHandler; AppNew;
                               AppExec code;
                               AppDel; CoreExit; ClearCoreSingleton ])
                (repeat (-133742) n ++ [exit_code]),
       Returned) /\
  start (repeat (-133742) n)
    = ((flat_map (fun code => [ CoreInit; InitConfigHandler; AppNew;
                                AppExec code;
                                AppDel; CoreExit; ClearCoreSingleton ])
                 (repeat (-133742) n)
        ++ [CoreInit; InitConfigHandler; AppNew])%list,
       AppRunning) /\
  start (-133742 :: later)
    = (([ CoreInit; InitConfigHandler; AppNew; AppExec (-133742);
          AppDel; CoreExit; ClearCoreSingleton ]
        ++ fst (start later))%list,
       snd (start later)) /\
  start (exit_code :: later)
    = ([ CoreInit; InitConfigHandler; AppNew; AppExec exit_code;
         AppDel; CoreExit; ClearCoreSingleton ],
       Returned) /\
  (exists more,
     fst (start later) = CoreInit :: InitConfigHandler :: AppNew :: more).
Proof.
  intros Hne. change (-133742) with restart_code in *.
  split; [|split; [|split; [|split]]].
  - induction n as [|n IH]; cbn [repeat app].
    + rewrite start_exit by exact Hne. reflexivity.
    + rewrite start_restart, IH. reflexivity.
  - induction n as [|n IH]; cbn [repeat].
    + reflexivity.
    + rewrite start_restart, IH. reflexivity.
  - rewrite start_restart. reflexivity.
  - now apply start_exit.
  - destruct later as [|c later']; [now exists []|].
    cbn [start]. destruct (negb (c =? restart_code)).
    + eexists. reflexivity.
    + destruct (start later') as [more o]. eexists. reflexivity.
Qed.

Lemma restart_loop_turns_witness :
  start [-133742; -133742; 0; 7]
  = ([ CoreInit; InitConfigHandler; AppNew; AppExec (-133742);
       AppDel; CoreExit; ClearCoreSingleton;
       CoreInit; InitConfigHandler; AppNew; AppExec (-133742);
       AppDel; CoreExit; ClearCoreSingleton;
       CoreInit; InitConfigHandler; AppNew; AppExec 0;
       AppDel; CoreExit; ClearCoreSingleton ],
     Returned).
Proof.
  refine (eq_trans (proj1 (restart_loop_turns 2 0 [7] _)) eq_refl).
  discriminate.
Defined.

End RestartLoop.

(* ================================================================== *)
(** * Further properties of the image set *)
(* ================================================================== *)

Section ImageSetProperties.
Import ShopModels Shapes.

Lemma for_each_app {A S} (body : S -> A -> result S) (xs ys : list A) (acc : S) :
  for_each body (xs ++ ys)%list acc
  = bind (for_each body xs acc) (for_each body ys).
Proof.
  revert acc. induction xs as [|x xs IH]; intros acc; cbn [app for_each].
  - reflexivity.
  - destruct (body acc x) as [acc'|e]; cbn [bind]; [apply IH | reflexivity].
Qed.

Lemma image_step_entry (tmp : ImageUrlModel) (item : pyval) :
  is_image_entry item = true ->
  ImageUrlModel.image_step tmp item
  = Ok (mkImageUrlModel
          (last_url "DieselStoreFrontTall" [item] (front_tall tmp))
          (last_url "OfferImageTall" [item] (offer_image_tall tmp))
          (last_url "Thumbnail" [item] (thumbnail tmp))
          (last_url "DieselStoreFrontWide" [item] (front_wide tmp))
          (last_url "OfferImageWide" [item] (offer_image_wide tmp))).
Proof.
  destruct item as [| | | |l|d]; try discriminate. cbn [is_image_entry].
  destruct (sget d "type") as [t|] eqn:Ht; [|discriminate].
  destruct (sget d "url") as [u|] eqn:Hu; [|discriminate]. intros _.
  unfold ImageUrlModel.image_step. cbn [last_url subscript]. rewrite Ht, Hu.
  cbn [bind].
  destruct t as [| | |s| |]; cbn [eq_str]; try (destruct tmp; reflexivity).
  destruct (String.eqb_spec s "Thumbnail") as [->|H1]; [reflexivity|].
  destruct (String.eqb_spec s "DieselStoreFrontTall") as [->|H2]; [reflexivity|].
  destruct (String.eqb_spec s "DieselStoreFrontWide") as [->|H3]; [reflexivity|].
  destruct (String.eqb_spec s "OfferImageTall") as [->|H4]; [reflexivity|].
  destruct (String.eqb_spec s "OfferImageWide") as [->|H5]; [reflexivity|].
  destruct tmp; reflexivity.
Qed.

Lemma for_each_image_entries (items : list pyval) (tmp : ImageUrlModel) :
  forallb is_image_entry items = true ->
  for_each ImageUrlModel.image_step items tmp
  = Ok (mkImageUrlModel
          (last_url "DieselStoreFrontTall" items (front_tall tmp))
          (last_url "OfferImageTall" items (offer_image_tall tmp))
          (last_url "Thumbnail" items (thumbnail tmp))
          (last_url "DieselStoreFrontWide" items (front_wide tmp))
          (last_url "OfferImageWide" items (offer_image_wide tmp))).
Proof.
  revert tmp. induction items as [|item items IH]; intros tmp Hall.
  - destruct tmp; reflexivity.
  - cbn [forallb] in Hall. apply andb_prop in Hall as [Hitem Hall].
    cbn [for_each]. rewrite (image_step_entry tmp item Hitem). cbn [bind].
    rewrite (IH _ Hall). reflexivity.
Qed.

(** X1: over entries that all have a [type] and an [url], the parse
    succeeds and each of the five fields is the [url] of the last entry
    of its type, or the empty string when no entry has it; entries of
    other types change nothing. *)
Theorem image_set_last_entry_wins (items : list pyval) :
  forallb is_image_entry items = true ->
  ImageUrlModel.from_json (PList items)
  = Ok (mkImageUrlModel
          (last_url "DieselStoreFrontTall" items (PStr ""))
          (last_url "OfferImageTall" items (PStr ""))
          (last_url "Thumbnail" items (PStr ""))
          (last_url "DieselStoreFrontWide" items (PStr ""))
          (last_url "OfferImageWide" items (PStr ""))).
Proof.
  intros Hall. unfold ImageUrlModel.from_json. cbn [iter bind].
  exact (for_each_image_entries items ImageUrlModel.cls Hall).
Qed.

Lemma image_set_last_entry_wins_witness :
  ImageUrlModel.from_json
    (PList [ PDict [("type", PStr "Thumbnail"); ("url", PStr "a")];
             PDict [("type", PStr "Other"); ("url", PStr "b")];
             PDict [("url", PStr "c"); ("type", PStr "Thumbnail")] ])
  = Ok (mkImageUrlModel (PStr "") (PStr "") (PStr "c") (PStr "") (PStr "")).
Proof.
  exact (image_set_last_entry_wins
           [ PDict [("type", PStr "Thumbnail"); ("url", PStr "a")];
             PDict [("type", PStr "Other"); ("url", PStr "b")];
             PDict [("url", PStr "c"); ("type", PStr "Thumbnail")] ] eq_refl).
Defined.

(** X2: an entry without a [type], or of a known type without an [url],
    aborts the parse of the image set with [KeyError], wherever it
    stands after entries that are complete. *)
Theorem image_set_incomplete_entry (before after : list pyval)
    (d : list (string * pyval)) :
  forallb is_image_entry before = true ->
  sget d "type" = None \/
  (exists ty, sget d "type" = Some (PStr ty) /\ In ty image_types /\
              sget d "url" = None) ->
  ImageUrlModel.from_json (PList (before ++ PDict d :: after)) = Raise KeyError.
Proof.
  intros Hall Hbad. unfold ImageUrlModel.from_json. cbn [iter bind].
  rewrite for_each_app, (for_each_image_entries before _ Hall). cbn [bind for_each].
  assert (Hstep : forall tmp, ImageUrlModel.image_step tmp (PDict d) = Raise KeyError).
  { intros tmp. unfold ImageUrlModel.image_step. cbn [subscript].
    destruct Hbad as [Ht|(ty & Ht & Hin & Hu)]; rewrite Ht; [reflexivity|].
    rewrite Hu. cbn [bind eq_str].
    cbn [image_types In] in Hin.
    destruct Hin as [<-|[<-|[<-|[<-|[<-|[]]]]]]; reflexivity. }
  now rewrite Hstep.
Qed.

Lemma image_set_incomplete_entry_witness :
  ImageUrlModel.from_json
    (PList [ PDict [("type", PStr "Thumbnail"); ("url", PStr "a")];
             PDict [("type", PStr "OfferImageWide")];
             PDict [("type", PStr "Thumbnail"); ("url", PStr "c")] ])
  = Raise KeyError.
Proof.
  refine (image_set_incomplete_entry
            [PDict [("type", PStr "Thumbnail"); ("url", PStr "a")]]
            [PDict [("type", PStr "Thumbnail"); ("url", PStr "c")]]
            [("type", PStr "OfferImageWide")] eq_refl _).
  right. exists "OfferImageWide". repeat split; cbn; auto 10.
Defined.

End ImageSetProperties.

(* ================================================================== *)
(** * Further properties of the game listing *)
(* ================================================================== *)

Section PageSelection.
Import ShopModels ShopModels.ShopGame Shapes.


Lemma find_home_first (before after : list pyval) (d : list (string * pyval))
    (t : pyval) :
  forallb is_other_page before = true ->
  sget d "_title" = Some t -> eq_str t "home" = true ->
  find_home (before ++ PDict d :: after) = Ok (Some (PDict d)).
Proof.
  intros Hall Ht Hhome.
  induction before as [|p before IH]; cbn [app find_home].
  - cbn [subscript]. rewrite Ht. cbn [bind]. now rewrite Hhome.
  - cbn [forallb] in Hall. apply andb_prop in Hall as [Hp Hall].
    destruct p as [| | | |l|d']; try discriminate. cbn [is_other_page] in Hp.
    cbn [subscript].
    destruct (sget d' "_title") as [t'|]; [|discriminate]. cbn [bind].
    apply negb_true_iff in Hp. rewrite Hp. now apply IH.
Qed.



(** X4: a catalog document that is a list is parsed exactly as its
    first entry titled [home], whatever follows it. *)
Theorem from_json_list_is_first_home (before after : list pyval)
    (d : list (string * pyval)) (t search_data : pyval) :
  forallb is_other_page before = true ->
  sget d "_title" = Some t -> eq_str t "home" = true ->
  from_json (PList (before ++ PDict d :: after)) search_data
  = from_json (PDict d) search_data.
Proof.
  intros Hall Ht Hhome. unfold from_json, select_home.
  rewrite (find_home_first before after d t Hall Ht Hhome). reflexivity.
Qed.

Lemma from_json_list_is_first_home_witness :
  from_json (PList ([PDict [("_title", PStr "about")]]
                    ++ PDict (("_title", PStr "home") :: Samples.catalog_doc)
                    :: [PNone]))
            (PDict Samples.search_doc)
  = from_json (PDict (("_title", PStr "home") :: Samples.catalog_doc))
              (PDict Samples.search_doc).
Proof.
  exact (from_json_list_is_first_home
           [PDict [("_title", PStr "about")]] [PNone]
           (("_title", PStr "home") :: Samples.catalog_doc) (PStr "home")
           (PDict Samples.search_doc) eq_refl eq_refl eq_refl).
Defined.

(** X5: a catalog document with a [pages] key is parsed exactly as the
    first of its pages (when that page has no [pages] of its own), and
    with an empty list of pages the parse ends in [IndexError]. *)
Theorem from_json_pages_is_first_page (ad : list (string * pyval))
    (pages : list pyval) (search_data : pyval) :
  sget ad "pages" = Some (PList pages) ->
  match pages with
  | [] => from_json (PDict ad) search_data = Raise IndexError
  | page :: _ =>
      in_keys page "pages" = Ok false ->
      from_json (PDict ad) search_data = from_json page search_data
  end.
Proof.
  intros Hp. unfold from_json, select_home, select_page, in_keys.
  cbn [bind subscript]. rewrite Hp. cbn [bind first_item].
  destruct pages as [|page rest]; [reflexivity|].
  intros Hno. destruct page as [| | | |l|d]; try discriminate Hno.
  cbn [in_keys] in Hno. cbn [bind].
  destruct (sget d "pages"); [discriminate Hno|]. reflexivity.
Qed.

Lemma from_json_pages_is_first_page_witness :
  from_json (PDict [("pages", PList [PDict Samples.catalog_doc; PNone])])
            (PDict Samples.search_doc)
  = from_json (PDict Samples.catalog_doc) (PDict Samples.search_doc).
Proof.
  exact (from_json_pages_is_first_page
           [("pages", PList [PDict Samples.catalog_doc; PNone])]
           [PDict Samples.catalog_doc; PNone] (PDict Samples.search_doc)
           eq_refl eq_refl).
Defined.

End PageSelection.

Section TagProperties.
Import ShopModels ShopModels.ShopGame Shapes.

Lemma str_map_length (f : ascii -> ascii) (s : string) :
  String.length (str_map f s) = String.length s.
Proof. induction s as [|c s IH]; cbn; [reflexivity | now rewrite IH]. Qed.

Lemma str_map_no_char (f : ascii -> ascii) (c : ascii) (s : string) :
  (forall a, Ascii.eqb (f a) c = false) -> no_char c (str_map f s) = true.
Proof.
  intros Hf. induction s as [|a s IH]; cbn [str_map no_char]; [reflexivity|].
  now rewrite Hf, IH.
Qed.

Lemma str_map_map (f g : ascii -> ascii) (s : string) :
  str_map f (str_map g s) = str_map (fun c => f (g c)) s.
Proof. induction s as [|c s IH]; cbn; [reflexivity | now rewrite IH]. Qed.

Lemma upper_of_spaced_not_underscore (a : ascii) :
  Ascii.eqb (to_upper (if Ascii.eqb a "_" then " "%char else a)) "_" = false.
Proof.
  destruct a as [[] [] [] [] [] [] [] []]; reflexivity.
Qed.

Lemma lower_of_spaced_not_underscore (a : ascii) :
  Ascii.eqb (to_lower (if Ascii.eqb a "_" then " "%char else a)) "_" = false.
Proof.
  destruct a as [[] [] [] [] [] [] [] []]; reflexivity.
Qed.

Lemma lower_not_upper (a : ascii) : is_upper (to_lower a) = false.
Proof.
  destruct a as [[] [] [] [] [] [] [] []]; reflexivity.
Qed.

Lemma isascii_str_map (f : ascii -> ascii) (s : string) :
  (forall c, (N_of_ascii c <? 128)%N = true -> (N_of_ascii (f c) <? 128)%N = true) ->
  isascii s = true -> isascii (str_map f s) = true.
Proof.
  intros Hf. induction s as [|c s IH]; cbn [isascii str_map]; [reflexivity|].
  intros H. apply andb_prop in H as [Hc Hs]. now rewrite (Hf c Hc), IH.
Qed.

Lemma to_upper_ascii (c : ascii) :
  (N_of_ascii c <? 128)%N = true -> (N_of_ascii (to_upper c) <? 128)%N = true.
Proof. destruct c as [[] [] [] [] [] [] [] []]; intros H; exact H || reflexivity. Qed.

Lemma to_lower_ascii (c : ascii) :
  (N_of_ascii c <? 128)%N = true -> (N_of_ascii (to_lower c) <? 128)%N = true.
Proof. destruct c as [[] [] [] [] [] [] [] []]; intros H; exact H || reflexivity. Qed.

(** The tag the comprehension makes of a string *)
Lemma normalized_tag (s : string) :
  let t := capitalize (replace "_" " " s) in
  String.length t = String.length s /\ no_char "_" t = true /\
  (isascii s = true -> isascii t = true).
Proof.
  cbn zeta. rewrite (replace_char "_" " " s).
  destruct s as [|c s]; [repeat split; reflexivity|].
  cbn [str_map capitalize String.length no_char]. unfold lower.
  rewrite str_map_map, str_map_length. split; [reflexivity|]. split.
  - rewrite upper_of_spaced_not_underscore. cbn [negb andb].
    apply str_map_no_char. intros a. apply lower_of_spaced_not_underscore.
  - cbn [isascii]. intros H. apply andb_prop in H as [Hc Hs].
    apply andb_true_intro. split.
    + apply to_upper_ascii. destruct (Ascii.eqb c "_"); [reflexivity | exact Hc].
    + apply isascii_str_map; [|exact Hs].
      intros a Ha. apply to_lower_ascii.
      destruct (Ascii.eqb a "_"); [reflexivity | exact Ha].
Qed.

Lemma for_each_tag_step (ss : list string) (acc : list string) :
  for_each tag_step (map PStr ss) acc
  = Ok (acc ++ map (fun s => capitalize (replace "_" " " s)) ss)%list.
Proof.
  revert acc. induction ss as [|s ss IH]; intros acc; cbn [map for_each].
  - now rewrite app_nil_r.
  - cbn [tag_step bind]. rewrite IH. now rewrite <- app_assoc.
Qed.

(** X6: a list of ASCII strings always normalizes: one tag for each, in
    order, ASCII again, as long as the string it comes from and without
    any underscore; an entry that is not a string ends the parse in
    [AttributeError]. *)
Theorem normalize_tags_of_strings (ss : list string) (v : pyval)
    (rest : list pyval) :
  forallb isascii ss = true ->
  (forall s, v <> PStr s) ->
  (exists ts, normalize_tags (PList (map PStr ss)) = Ok ts /\
     Forall2 (fun s t => String.length t = String.length s /\
                         no_char "_" t = true /\ isascii t = true) ss ts) /\
  normalize_tags (PList (map PStr ss ++ v :: rest)) = Raise AttributeError.
Proof.
  intros Hascii Hv. split.
  - exists (map (fun s => capitalize (replace "_" " " s)) ss). split.
    + unfold normalize_tags. cbn [iter bind]. now rewrite for_each_tag_step.
    + induction ss as [|s ss IH]; cbn [map]; constructor.
      * cbn [forallb] in Hascii. apply andb_prop in Hascii as [Hs _].
        destruct (normalized_tag s) as (Hl & Hu & Ha). auto.
      * apply IH. cbn [forallb] in Hascii.
        now apply andb_prop in Hascii as [_ Hss].
  - unfold normalize_tags. cbn [iter bind].
    rewrite for_each_app, for_each_tag_step. cbn [bind for_each].
    destruct v; try reflexivity. now elim (Hv s).
Qed.

Lemma normalize_tags_of_strings_witness :
  (exists ts,
     normalize_tags (PList [PStr "indie_game"; PStr "ACTION"]) = Ok ts /\
     Forall2 (fun s t => String.length t = String.length s /\
                         no_char "_" t = true /\ isascii t = true)
             ["indie_game"; "ACTION"] ts) /\
  normalize_tags (PList [PStr "indie_game"; PStr "ACTION"; PInt 3; PStr "x"])
  = Raise AttributeError.
Proof.
  refine (normalize_tags_of_strings ["indie_game"; "ACTION"] (PInt 3)
            [PStr "x"] eq_refl _).
  intros s. discriminate.
Defined.

End TagProperties.

Section DeveloperProperties.
Import ShopModels ShopModels.ShopGame Shapes.

Lemma for_each_developer_step (attrs : list pyval) (dev : pyval) :
  forallb is_attribute attrs = true ->
  for_each developer_step attrs dev = Ok (last_developer attrs dev).
Proof.
  revert dev. induction attrs as [|i attrs IH]; intros dev Hall; [reflexivity|].
  cbn [forallb] in Hall. apply andb_prop in Hall as [Hi Hall].
  destruct i as [| | | |l|d]; try discriminate. cbn [is_attribute] in Hi.
  cbn [for_each last_developer]. unfold developer_step at 1. cbn [subscript].
  destruct (sget d "key") as [k|]; [|discriminate].
  destruct (sget d "value") as [v|]; [|discriminate]. cbn [bind].
  destruct (eq_str k "developerName"); cbn [bind]; now apply IH.
Qed.

(** X7: the developer of the catalog is kept when it is not empty,
    and then [customAttributes] is not read at all; when it is empty
    the developer is the value of the last [developerName] attribute,
    or stays as it was when there is none. *)
Theorem developer_fallback_last_wins (sd : list (string * pyval))
    (attrs : list pyval) (dev : pyval) :
  truthy dev = false ->
  sget sd "customAttributes" = Some (PList attrs) ->
  forallb is_attribute attrs = true ->
  developer_fallback (PDict sd) dev = Ok (last_developer attrs dev) /\
  (forall search_data dev',
     truthy dev' = true -> developer_fallback search_data dev' = Ok dev').
Proof.
  intros Ht Ha Hall. unfold developer_fallback. split.
  - rewrite Ht. cbn [negb subscript]. rewrite Ha.
    cbn [bind iter]. now apply for_each_developer_step.
  - intros search_data dev' Ht'. now rewrite Ht'.
Qed.

Lemma developer_fallback_last_wins_witness :
  developer_fallback
    (PDict [("customAttributes", PList [
       PDict [("key", PStr "developerName"); ("value", PStr "First")];
       PDict [("key", PStr "publisherName"); ("value", PStr "Pub")];
       PDict [("key", PStr "developerName"); ("value", PStr "Second")]])])
    (PStr "")
  = Ok (PStr "Second").
Proof.
  exact (proj1 (developer_fallback_last_wins
           [("customAttributes", PList [
              PDict [("key", PStr "developerName"); ("value", PStr "First")];
              PDict [("key", PStr "publisherName"); ("value", PStr "Pub")];
              PDict [("key", PStr "developerName"); ("value", PStr "Second")]])]
           [ PDict [("key", PStr "developerName"); ("value", PStr "First")];
             PDict [("key", PStr "publisherName"); ("value", PStr "Pub")];
             PDict [("key", PStr "developerName"); ("value", PStr "Second")] ]
           (PStr "") eq_refl eq_refl eq_refl)).
Defined.

End DeveloperProperties.

Section PrefixProperties.
Import ShopModels ShopModels.ShopGame Shapes.

Lemma replace_scan_absent (old new s : string) :
  occurs old s = false -> replace_scan old new 0 s = s.
Proof.
  induction s as [|c s IH]; intros Hocc; [reflexivity|].
  cbn [occurs] in Hocc. apply orb_false_iff in Hocc as [Hp Hr].
  cbn [replace_scan]. rewrite Hp. f_equal. now apply IH.
Qed.

(** Replacing what does not occur changes nothing. *)
Lemma replace_absent (old new s : string) :
  occurs old s = false -> replace old new s = s.
Proof.
  intros Hocc. destruct old as [|c o].
  - destruct s; discriminate Hocc.
  - now apply replace_scan_absent.
Qed.

Lemma for_each_link_step_clean (d d' : list (string * pyval))
    (acc : list (string * pyval)) :
  (forall k v, In (k, v) d' -> sget d k = Some v) ->
  (forall k v, In (k, v) d' -> startswith k "link" = true ->
               occurs "link" (remainder "link" k) = false) ->
  for_each (link_step (PDict d)) (map (fun kv => PStr (fst kv)) d') acc
  = Ok (acc ++ map (fun kv => (remainder "link" (fst kv), snd kv))
                   (filter is_link d'))%list.
Proof.
  intros Hd Hclean. rewrite (for_each_link_step d d' acc Hd). do 2 f_equal.
  clear Hd. induction d' as [|[k v] d' IH]; [reflexivity|].
  cbn [filter].
  change (is_link (k, v)) with (startswith k "link").
  destruct (startswith k "link") eqn:Hk.
  - cbn [map]. unfold link_pair at 1. cbn [fst snd].
    rewrite (link_label_of_rest k Hk).
    rewrite replace_absent by (apply (Hclean k v); [now left | exact Hk]).
    f_equal. apply IH. intros k' v' Hin. apply (Hclean k' v'). now right.
  - apply IH. intros k' v' Hin. apply (Hclean k' v'). now right.
Qed.

(** X8: when no key of the social links holds [link] again after the
    prefix, the labels are the keys without their prefix: one pair for
    each key that starts with [link], in the order of the keys, with
    the value of the key; [__init__] computes the same list from its
    [social_links] argument. *)
Theorem collect_links_strips_prefix (d : list (string * pyval)) :
  NoDup (map fst d) ->
  forallb (fun kv => negb (is_link kv)
                     || negb (occurs "link" (remainder "link" (fst kv)))) d
    = true ->
  collect_links (PDict d)
  = Ok (map (fun kv => (remainder "link" (fst kv), snd kv)) (filter is_link d))
  /\ init_links (PDict d) = collect_links (PDict d).
Proof.
  intros Hnd Hclean. split.
  - unfold collect_links. cbn [iter bind].
    apply (for_each_link_step_clean d d []).
    + intros k v Hin. now apply sget_In_NoDup.
    + intros k v Hin Hk. rewrite forallb_forall in Hclean.
      specialize (Hclean (k, v) Hin). unfold is_link in Hclean.
      cbn [fst] in Hclean. rewrite Hk in Hclean. cbn [negb orb] in Hclean.
      now apply negb_true_iff in Hclean.
  - unfold init_links. destruct d; reflexivity.
Qed.

Lemma collect_links_strips_prefix_witness :
  collect_links (PDict [ ("_type", PStr "Social Links");
                         ("linkTwitter", PStr "t");
                         ("linkHomepage", PStr "h") ])
  = Ok [("Twitter", PStr "t"); ("Homepage", PStr "h")].
Proof.
  refine (proj1 (collect_links_strips_prefix
            [ ("_type", PStr "Social Links"); ("linkTwitter", PStr "t");
              ("linkHomepage", PStr "h") ] _ eq_refl)).
  repeat constructor; cbn; intuition discriminate.
Defined.

Lemma collect_links_dict_witness :
  collect_links (PDict [ ("linkHyperlink", PStr "u"); ("homepage", PStr "h") ])
  = Ok [("Hyper", PStr "u")].
Proof.
  refine (collect_links_dict
            [ ("linkHyperlink", PStr "u"); ("homepage", PStr "h") ] _).
  repeat constructor; cbn; intuition discriminate.
Defined.

End PrefixProperties.

Section PriceProperties.
Import ShopModels.BrowseModel Shapes.

(** X9: for a price that starts with the marker and does not hold it
    again, [priceRange] is the price without the marker, and
    [freeGame] is absent. *)
Theorem price_range_strips_marker (e : Env) (q : BrowseModel) :
  startswith (price q) "<price>" = true ->
  occurs "<price>" (remainder "<price>" (price q)) = false ->
  sget (__dict__ e q) "priceRange"
    = Some (PStr (remainder "<price>" (price q))) /\
  sget (__dict__ e q) "freeGame" = None.
Proof.
  intros Hp Hclean. split.
  - rewrite (price_range_of_rest e q Hp). now rewrite replace_absent.
  - exact (proj2 (dict_price_range e q Hp)).
Qed.

Lemma price_range_strips_marker_witness :
  sget (__dict__ (mkEnv "en" (mkDateTime 2022 3 5 14 7 9) 7)
          (__init__ (class_defaults (mkEnv "en" (mkDateTime 2022 3 5 14 7 9) 7))
                    (priced "<price>[0,999]")))
       "priceRange"
  = Some (PStr "[0,999]").
Proof.
  exact (proj1 (price_range_strips_marker
                  (mkEnv "en" (mkDateTime 2022 3 5 14 7 9) 7)
                  (__init__ (class_defaults (mkEnv "en" (mkDateTime 2022 3 5 14 7 9) 7))
                            (priced "<price>[0,999]"))
                  eq_refl eq_refl)).
Defined.

End PriceProperties.

Section RequirementProperties.
Import ShopModels ShopModels.ShopGame Shapes.

Lemma key_eqb_refl (k : pyval) : hashable k = true -> key_eqb k k = true.
Proof.
  destruct k; cbn; try discriminate; intros _;
    [reflexivity | apply Bool.eqb_reflx | apply Z.eqb_refl | apply String.eqb_refl].
Qed.

Lemma dict_get_set_same {V} (d : list (pyval * V)) (k : pyval) (v : V) :
  key_eqb k k = true -> dict_get key_eqb (dict_set key_eqb d k v) k = Some v.
Proof.
  intros Hk. induction d as [|[k' v'] d IH]; cbn [dict_set dict_get].
  - now rewrite Hk.
  - destruct (key_eqb k' k) eqn:Hk'; cbn [dict_get]; rewrite Hk';
      [reflexivity | exact IH].
Qed.

Lemma dict_set_set {V} (d : list (pyval * V)) (k : pyval) (a b : V) :
  key_eqb k k = true ->
  dict_set key_eqb (dict_set key_eqb d k a) k b = dict_set key_eqb d k b.
Proof.
  intros Hk. induction d as [|[k' v'] d IH]; cbn [dict_set].
  - now rewrite Hk.
  - destruct (key_eqb k' k) eqn:Hk'; cbn [dict_set]; rewrite Hk';
      [reflexivity | now rewrite IH].
Qed.

(** One requirement changes the table of its system as [table_step]
    says, and nothing else. *)
Lemma req_step_table (s : list (string * pyval)) (st : pyval)
    (reqs : reqs_dict) (table : req_table) (req : pyval) :
  sget s "systemType" = Some st -> hashable st = true ->
  req_step (PDict s) (dict_set key_eqb reqs st table) req
  = table' <- table_step table req ;;
    Ok (dict_set key_eqb reqs st table').
Proof.
  intros Hst Hh. pose proof (key_eqb_refl st Hh) as Hrefl.
  unfold req_step, table_step.
  destruct (subscript req "minimum") as [mn|e1];
    [|destruct e1; cbn; rewrite ?dict_set_set by exact Hrefl; reflexivity].
  destruct (subscript req "recommended") as [rc|e2];
    [|destruct e2; cbn; rewrite ?dict_set_set by exact Hrefl; reflexivity].
  cbn [bind subscript]. rewrite Hst. cbn [bind].
  unfold getitem. rewrite Hh, (dict_get_set_same reqs st table Hrefl). cbn [bind].
  destruct (subscript req "title") as [t|e3];
    [|destruct e3; cbn; rewrite ?dict_set_set by exact Hrefl; reflexivity].
  cbn [bind]. unfold setitem at 1 3. destruct (hashable t); cbn [bind except_KeyError].
  - unfold setitem. rewrite Hh. cbn [except_KeyError].
    now rewrite dict_set_set by exact Hrefl.
  - reflexivity.
Qed.

Lemma for_each_req_step (s : list (string * pyval)) (st : pyval)
    (reqs : reqs_dict) (ds : list pyval) (table : req_table) :
  sget s "systemType" = Some st -> hashable st = true ->
  for_each (req_step (PDict s)) ds (dict_set key_eqb reqs st table)
  = table' <- for_each table_step ds table ;;
    Ok (dict_set key_eqb reqs st table').
Proof.
  intros Hst Hh. revert table. induction ds as [|req ds IH]; intros table.
  - reflexivity.
  - cbn [for_each]. rewrite (req_step_table s st reqs table req Hst Hh).
    destruct (table_step table req) as [table'|e]; cbn [bind];
      [apply IH | reflexivity].
Qed.

(** A system block that names its system: its table, from its details *)
Lemma system_step_table (s : list (string * pyval))
    (st details : pyval) (reqs : reqs_dict) :
  sget s "systemType" = Some st -> hashable st = true ->
  sget s "details" = Some details ->
  system_step reqs (PDict s)
  = table <- parse_rows details ;; Ok (dict_set key_eqb reqs st table).
Proof.
  intros Hst Hh Hd. unfold system_step, parse_rows. cbn [subscript].
  rewrite Hst, Hd. cbn [bind]. unfold setitem. rewrite Hh.
  destruct (iter details) as [ds|e]; cbn [bind]; [|reflexivity].
  apply (for_each_req_step s st reqs ds [] Hst Hh).
Qed.

(** X10: the table a system block leaves under its system type is
    computed from the [details] of that block alone and replaces the
    table an earlier block of the same type had left; the tables of the
    other types stay as they were. *)
Theorem system_step_replaces_table (s : list (string * pyval))
    (st details : pyval) (reqs : reqs_dict) :
  sget s "systemType" = Some st -> hashable st = true ->
  sget s "details" = Some details ->
  system_step reqs (PDict s)
  = table <- parse_rows details ;; Ok (dict_set key_eqb reqs st table).
Proof.
  intros Hst Hh Hd. unfold system_step, parse_rows. cbn [subscript].
  rewrite Hst, Hd. cbn [bind]. unfold setitem. rewrite Hh.
  destruct (iter details) as [ds|e]; cbn [bind]; [|reflexivity].
  apply (for_each_req_step s st reqs ds [] Hst Hh).
Qed.

Lemma system_step_replaces_table_witness :
  system_step
    [(PStr "Windows", [(PStr "OS", (PStr "XP", PStr "7"))]);
     (PStr "Mac", [])]
    (PDict [("systemType", PStr "Windows");
            ("details", PList [
               PDict [("title", PStr "Memory"); ("minimum", PStr "4 GB");
                      ("recommended", PStr "8 GB")];
               PDict [("title", PStr "CPU"); ("minimum", PStr "i3")]])])
  = Ok [(PStr "Windows", [(PStr "Memory", (PStr "4 GB", PStr "8 GB"))]);
        (PStr "Mac", [])].
Proof.
  exact (system_step_replaces_table
           [("systemType", PStr "Windows");
            ("details", PList [
               PDict [("title", PStr "Memory"); ("minimum", PStr "4 GB");
                      ("recommended", PStr "8 GB")];
               PDict [("title", PStr "CPU"); ("minimum", PStr "i3")]])]
           (PStr "Windows")
           (PList [
               PDict [("title", PStr "Memory"); ("minimum", PStr "4 GB");
                      ("recommended", PStr "8 GB")];
               PDict [("title", PStr "CPU"); ("minimum", PStr "i3")]])
           [(PStr "Windows", [(PStr "OS", (PStr "XP", PStr "7"))]);
            (PStr "Mac", [])]
           eq_refl eq_refl eq_refl).
Defined.

End RequirementProperties.

(* ================================================================== *)
(** * The keys the game listing needs, and its defaults *)
(* ================================================================== *)

Section ParseProperties.
Import ShopModels ShopModels.ShopGame Samples Shapes.

(** ** Loops that stop at the first exception *)

Lemma for_each_succeeds {A S} (body : S -> A -> result S) (ok : A -> bool) :
  (forall acc x, ok x = true -> exists acc', body acc x = Ok acc') ->
  forall xs acc, forallb ok xs = true -> exists r, for_each body xs acc = Ok r.
Proof.
  intros Hbody xs. induction xs as [|x xs IH]; intros acc Hall.
  - now exists acc.
  - cbn [forallb] in Hall. apply andb_prop in Hall as [Hx Hall].
    destruct (Hbody acc x Hx) as [acc' Hacc']. cbn [for_each].
    rewrite Hacc'. cbn [bind]. now apply IH.
Qed.

Lemma for_each_Ok_all {A S} (body : S -> A -> result S) (ok : A -> bool) :
  (forall acc x acc', body acc x = Ok acc' -> ok x = true) ->
  forall xs acc r, for_each body xs acc = Ok r -> forallb ok xs = true.
Proof.
  intros Hbody xs. induction xs as [|x xs IH]; intros acc r Hr; [reflexivity|].
  cbn [for_each] in Hr. apply bind_Ok in Hr as (acc' & Hx & Hr).
  cbn [forallb]. now rewrite (Hbody acc x acc' Hx), (IH acc' r Hr).
Qed.

Lemma has_key_Some (d : list (string * pyval)) (k : string) :
  has_key d k = true <-> exists v, sget d k = Some v.
Proof.
  unfold has_key. destruct (sget d k) as [v|]; split.
  - intros _. now exists v.
  - reflexivity.
  - discriminate.
  - intros [v Hv]. discriminate Hv.
Qed.

Lemma has_key_fst (d : list (string * pyval)) (kv : string * pyval) :
  In kv d -> has_key d (fst kv) = true.
Proof.
  unfold has_key, sget. induction d as [|[k' v'] d IH]; intros Hin; [contradiction|].
  cbn [dict_get]. destruct (String.eqb k' (fst kv)) eqn:Hk; [reflexivity|].
  destruct Hin as [<-|Hin]; [|now apply IH].
  cbn [fst] in Hk. now rewrite String.eqb_refl in Hk.
Qed.

(** ** The image set *)

Lemma image_step_ok (tmp : ImageUrlModel) (item : pyval) :
  image_entry_ok item = true <->
  exists tmp', ImageUrlModel.image_step tmp item = Ok tmp'.
Proof.
  unfold ImageUrlModel.image_step, image_entry_ok, has_key.
  destruct item as [| | | |l|d]; cbn [subscript bind];
    try (split; [discriminate | intros [? H]; discriminate H]).
  destruct (sget d "type") as [t|]; cbn [bind];
    [|split; [discriminate | intros [? H]; discriminate H]].
  cbn [image_types existsb].
  destruct (eq_str t "Thumbnail"), (eq_str t "DieselStoreFrontTall"),
    (eq_str t "DieselStoreFrontWide"), (eq_str t "OfferImageTall"),
    (eq_str t "OfferImageWide"), (sget d "url") as [u|];
    cbn [orb bind];
    (split; [intros H; try discriminate H; eexists; reflexivity
            | intros [? H]; try discriminate H; reflexivity]).
Qed.

Lemma image_set_ok (imgs : pyval) :
  all_items image_entry_ok imgs = true <->
  exists im, ImageUrlModel.from_json imgs = Ok im.
Proof.
  unfold all_items, ImageUrlModel.from_json.
  destruct (iter imgs) as [items|e]; cbn [bind];
    [|split; [discriminate | intros [? H]; discriminate H]].
  split.
  - apply for_each_succeeds. intros acc x Hx. now apply image_step_ok.
  - intros [im Him]. revert Him. apply for_each_Ok_all.
    intros acc x acc' Hx. apply (image_step_ok acc). now exists acc'.
Qed.

(** ** The social links *)

Lemma one_char_is_no_link (c : ascii) :
  startswith (String c "") "link" = false.
Proof.
  unfold startswith. cbn [String.prefix].
  destruct (ascii_dec "l" c); reflexivity.
Qed.

Lemma links_of_dict (d d' : list (string * pyval)) (acc : list (string * pyval)) :
  incl d' d ->
  exists lk, for_each (link_step (PDict d)) (map (fun kv => PStr (fst kv)) d') acc
             = Ok lk.
Proof.
  revert acc. induction d' as [|kv d' IH]; intros acc Hincl; cbn [map for_each].
  - now exists acc.
  - unfold link_step at 1. cbn [subscript].
    destruct (startswith (fst kv) "link").
    + assert (Hk : has_key d (fst kv) = true)
        by (apply has_key_fst, Hincl; now left).
      apply has_key_Some in Hk as [v Hv]. rewrite Hv. cbn [bind].
      apply IH. intros x Hx. apply Hincl. now right.
    + cbn [bind]. apply IH. intros x Hx. apply Hincl. now right.
Qed.

Lemma links_of_chars (social : pyval) (s : string) (acc : list (string * pyval)) :
  for_each (link_step social) (chars s) acc = Ok acc.
Proof.
  induction s as [|c s IH]; [reflexivity|].
  cbn [chars for_each]. unfold link_step at 1.
  rewrite one_char_is_no_link. cbn [bind]. exact IH.
Qed.

Lemma links_of_list (l items : list pyval) (acc : list (string * pyval)) :
  forallb (fun item => match item with
                       | PStr k => negb (startswith k "link")
                       | _ => false
                       end) items = true <->
  exists lk, for_each (link_step (PList l)) items acc = Ok lk.
Proof.
  revert acc. induction items as [|item items IH]; intros acc.
  - split; [now exists acc | reflexivity].
  - cbn [forallb for_each]. unfold link_step at 1.
    destruct item as [| | |k| |]; cbn [andb bind];
      try (split; [discriminate | intros [? H]; discriminate H]).
    destruct (startswith k "link"); cbn [negb andb subscript bind].
    + split; [discriminate | intros [? H]; discriminate H].
    + apply IH.
Qed.

Lemma links_ok_iff (social : pyval) :
  links_ok social = true <-> exists lk, collect_links social = Ok lk.
Proof.
  unfold collect_links. destruct social as [| | |s|l|d]; cbn [links_ok iter bind];
    try (split; [discriminate | intros [? H]; discriminate H]).
  - split; [intros _ | reflexivity]. exists []. apply links_of_chars.
  - apply links_of_list.
  - split; [intros _ | reflexivity]. apply links_of_dict. apply incl_refl.
Qed.

(** ** The requirement tables *)

Lemma table_step_ok (table : req_table) (req : pyval) :
  req_ok req = true <-> exists table', table_step table req = Ok table'.
Proof.
  unfold table_step, req_ok.
  destruct req as [| | | |l|r]; cbn [subscript bind except_KeyError];
    try (split; [discriminate | intros [? H]; discriminate H]).
  destruct (sget r "minimum") as [mn|]; cbn [bind except_KeyError];
    [|split; [eexists; reflexivity | reflexivity]].
  destruct (sget r "recommended") as [rc|]; cbn [bind except_KeyError];
    [|split; [eexists; reflexivity | reflexivity]].
  destruct (sget r "title") as [t|]; cbn [bind except_KeyError];
    [|split; [eexists; reflexivity | reflexivity]].
  unfold setitem. destruct (hashable t); cbn [except_KeyError].
  - split; [eexists; reflexivity | reflexivity].
  - split; [discriminate | intros [? H]; discriminate H].
Qed.

Lemma system_step_ok (reqs : reqs_dict) (system : pyval) :
  system_ok system = true <-> exists reqs', system_step reqs system = Ok reqs'.
Proof.
  unfold system_ok.
  destruct system as [| | | |l|s];
    try (split; [discriminate | intros [? H]; discriminate H]).
  destruct (sget s "systemType") as [st|] eqn:Hst.
  - destruct (hashable st) eqn:Hh; cbn [andb].
    + destruct (sget s "details") as [details|] eqn:Hd.
      * rewrite (system_step_table s st details reqs Hst Hh Hd).
        unfold all_items, parse_rows.
        destruct (iter details) as [ds|e]; cbn [bind];
          [|split; [discriminate | intros [? H]; discriminate H]].
        split.
        -- intros Hall.
           destruct (for_each_succeeds table_step req_ok
                       (fun acc x Hx => proj1 (table_step_ok acc x) Hx)
                       ds [] Hall) as [table Htable].
           rewrite Htable. cbn [bind]. eexists. reflexivity.
        -- intros [reqs' H]. apply bind_Ok in H as (table & Htable & _).
           revert Htable. apply for_each_Ok_all.
           intros acc x acc' Hx. apply (table_step_ok acc). now exists acc'.
      * unfold system_step. cbn [subscript]. rewrite Hst, Hd. cbn [bind].
        unfold setitem. rewrite Hh.
        split; [discriminate | intros [? H]; discriminate H].
    + unfold system_step. cbn [subscript]. rewrite Hst. cbn [bind].
      unfold setitem. rewrite Hh.
      split; [discriminate | intros [? H]; discriminate H].
  - rewrite (system_step_skips_untyped reqs s Hst).
    split; [eexists; reflexivity | reflexivity].
Qed.

Lemma systems_ok_iff (systems : pyval) :
  all_items system_ok systems = true <->
  exists rs, parse_systems systems = Ok rs.
Proof.
  unfold all_items, parse_systems.
  destruct (iter systems) as [ss|e]; cbn [bind];
    [|split; [discriminate | intros [? H]; discriminate H]].
  split.
  - apply for_each_succeeds. intros acc x Hx. now apply system_step_ok.
  - intros [rs Hrs]. revert Hrs. apply for_each_Ok_all.
    intros acc x acc' Hx. apply (system_step_ok acc). now exists acc'.
Qed.

(** ** The developer *)

Lemma developer_step_ok (dev : pyval) (i : pyval) :
  (attribute_ok i = true -> developer_step dev i = Ok (last_developer [i] dev)) /\
  ((exists dev', developer_step dev i = Ok dev') -> attribute_ok i = true).
Proof.
  unfold developer_step, attribute_ok, has_key. cbn [last_developer].
  destruct i as [| | | |l|d]; cbn [subscript bind];
    try (split; [discriminate | intros [? H]; discriminate H]).
  destruct (sget d "key") as [k|]; cbn [bind];
    [|split; [discriminate | intros [? H]; discriminate H]].
  destruct (eq_str k "developerName"), (sget d "value") as [v|];
    (split; [intros H; try discriminate H; reflexivity
            | intros [? H]; try discriminate H; reflexivity]).
Qed.

Lemma for_each_attributes (attrs : list pyval) (dev : pyval) :
  forallb attribute_ok attrs = true ->
  for_each developer_step attrs dev = Ok (last_developer attrs dev).
Proof.
  revert dev. induction attrs as [|i attrs IH]; intros dev Hall; [reflexivity|].
  cbn [forallb] in Hall. apply andb_prop in Hall as [Hi Hall].
  cbn [for_each]. rewrite (proj1 (developer_step_ok dev i) Hi). cbn [bind].
  rewrite (IH _ Hall). reflexivity.
Qed.

Lemma developer_fallback_ok (sd : list (string * pyval)) (dev0 : pyval) :
  (truthy dev0 = true -> developer_fallback (PDict sd) dev0 = Ok dev0) /\
  (truthy dev0 = false ->
   forall dev,
     developer_fallback (PDict sd) dev0 = Ok dev <->
     exists attrs items,
       sget sd "customAttributes" = Some attrs /\ iter attrs = Ok items /\
       forallb attribute_ok items = true /\ dev = last_developer items dev0).
Proof.
  unfold developer_fallback. split; intros Ht; rewrite Ht; cbn [negb];
    [reflexivity|].
  intros dev. cbn [subscript].
  destruct (sget sd "customAttributes") as [attrs|]; cbn [bind].
  - destruct (iter attrs) as [items|e] eqn:Hit; cbn [bind].
    + split.
      * intros H. exists attrs, items.
        assert (Hall : forallb attribute_ok items = true).
        { revert H. apply for_each_Ok_all. intros acc x acc' Hx.
          apply (developer_step_ok acc). now exists acc'. }
        rewrite (for_each_attributes items dev0 Hall) in H.
        injection H as <-. auto.
      * intros (attrs' & items' & [= <-] & Hit' & Hall & ->).
        rewrite Hit in Hit'. injection Hit' as <-.
        now apply for_each_attributes.
    + split; [discriminate|].
      intros (attrs' & items' & [= <-] & Hit' & _).
      rewrite Hit in Hit'. discriminate Hit'.
  - split; [discriminate|]. intros (attrs' & items' & H & _). discriminate H.
Qed.

(** ** The prices *)

Lemma fmt_price_ok (sd : list (string * pyval)) (k : string) (x : pyval) :
  fmt_price (PDict sd) k = Ok x <->
  exists p tp fp,
    sget sd "price" = Some (PDict p) /\
    sget p "totalPrice" = Some (PDict tp) /\
    sget tp "fmtPrice" = Some (PDict fp) /\
    sget fp k = Some x.
Proof.
  unfold fmt_price. split.
  - intros H.
    apply bind_Ok in H as (pv & Hp & H).
    apply bind_Ok in H as (tpv & Htp & H).
    apply bind_Ok in H as (fpv & Hfp & H).
    apply subscript_Ok in H as (fp & -> & Hk).
    apply subscript_Ok in Hfp as (tp & -> & Hfp).
    apply subscript_Ok in Htp as (p & -> & Htp).
    cbn [subscript] in Hp.
    destruct (sget sd "price") as [pv|]; [|discriminate Hp].
    injection Hp as ->. now exists p, tp, fp.
  - intros (p & tp & fp & Hp & Htp & Hfp & Hk). cbn [subscript].
    rewrite Hp. cbn [bind subscript]. rewrite Htp. cbn [bind subscript].
    rewrite Hfp. cbn [bind subscript]. now rewrite Hk.
Qed.

(** ** The tags *)

Lemma tags_ok_iff (tag_list : pyval) :
  all_items is_str tag_list = true <->
  exists tg, normalize_tags tag_list = Ok tg.
Proof.
  unfold all_items, normalize_tags.
  destruct (iter tag_list) as [items|e]; cbn [bind];
    [|split; [discriminate | intros [? H]; discriminate H]].
  split.
  - apply for_each_succeeds. intros acc x Hx.
    destruct x; try discriminate Hx. eexists. reflexivity.
  - intros [tg Htg]. revert Htg. apply for_each_Ok_all.
    intros acc x acc' Hx. destruct x; try discriminate Hx. reflexivity.
Qed.

(** ** The page *)

Lemma find_home_cases (products : list pyval) (h : option pyval) :
  find_home products = Ok h ->
  match h with
  | None => forallb is_other_page products = true
  | Some product =>
      exists before d after t,
        products = (before ++ PDict d :: after)%list /\
        forallb is_other_page before = true /\
        sget d "_title" = Some t /\ eq_str t "home" = true /\
        product = PDict d
  end.
Proof.
  revert h. induction products as [|p products IH]; intros h Hh.
  - injection Hh as <-. reflexivity.
  - cbn [find_home] in Hh. apply bind_Ok in Hh as (t & Ht & Hh).
    apply subscript_Ok in Ht as (d & -> & Ht).
    destruct (eq_str t "home") eqn:Hhome.
    + injection Hh as <-. exists [], d, products, t. auto.
    + specialize (IH h Hh). destruct h as [product|].
      * destruct IH as (before & d' & after & t' & -> & Hall & Ht' & Hh' & ->).
        exists (PDict d :: before), d', after, t'. repeat split; auto.
        cbn [forallb is_other_page]. now rewrite Ht, Hhome, Hall.
      * cbn [forallb is_other_page]. now rewrite Ht, Hhome, IH.
Qed.

Lemma select_page_dict (d : list (string * pyval)) (page : pyval) :
  select_page (PDict d) = Ok page <-> first_page d page.
Proof.
  unfold select_page, first_page, in_keys. cbn [bind subscript].
  destruct (sget d "pages") as [pages|]; cbn [bind].
  - reflexivity.
  - split; [now intros [= <-] | now intros ->].
Qed.

(** The page [from_json] goes on with, by the shape of the catalog
    document *)
Lemma select_iff (api_data page : pyval) :
  (page0 <- select_home api_data ;; select_page page0) = Ok page <->
  selected_page api_data page.
Proof.
  destruct api_data as [| | | |products|d]; cbn [select_home selected_page bind];
    try (split; [discriminate | contradiction]).
  - destruct (find_home products) as [h|e] eqn:Hh; cbn [bind].
    + pose proof (find_home_cases products h Hh) as Hc.
      destruct h as [product|].
      * destruct Hc as (before & d & after & t & -> & Hall & Ht & Hhome & ->).
        rewrite select_page_dict. split.
        -- intros Hp. now exists before, d, after, t.
        -- intros (before' & d' & after' & t' & Heq & Hall' & Ht' & Hhome' & Hp).
           rewrite Heq in Hh.
           rewrite (find_home_first before' after' d' t' Hall' Ht' Hhome') in Hh.
           now injection Hh as <-.
      * split; [discriminate|].
        intros (before' & d' & after' & t' & Heq & Hall' & Ht' & Hhome' & Hp).
        rewrite Heq in Hh.
        rewrite (find_home_first before' after' d' t' Hall' Ht' Hhome') in Hh.
        discriminate Hh.
    + split; [discriminate|].
      intros (before' & d' & after' & t' & Heq & Hall' & Ht' & Hhome' & Hp).
      rewrite Heq in Hh.
      rewrite (find_home_first before' after' d' t' Hall' Ht' Hhome') in Hh.
      discriminate Hh.
  - apply select_page_dict.
Qed.

(** ** The whole parse *)

(** The parse as the composition of its parts, on the page selected *)
Lemma from_json_reads (api_data : pyval) (page sd dd rq mt : list (string * pyval))
    (imgs social : pyval) (im : ImageUrlModel) (lk : list (string * pyval))
    (rs : reqs_dict) (dev op dp : pyval) (tg : list string) (ns oid : pyval) :
  (page0 <- select_home api_data ;; select_page page0) = Ok (PDict page) ->
  sget sd "keyImages" = Some imgs ->
  ImageUrlModel.from_json imgs = Ok im ->
  sget page "data" = Some (PDict dd) ->
  sget dd "socialLinks" = Some social ->
  collect_links social = Ok lk ->
  sget dd "requirements" = Some (PDict rq) ->
  parse_systems (opt_or (sget rq "systems") (PList [])) = Ok rs ->
  sget dd "meta" = Some (PDict mt) ->
  developer_fallback (PDict sd) (opt_or (sget mt "developer") (PStr "")) = Ok dev ->
  fmt_price (PDict sd) "originalPrice" = Ok op ->
  fmt_price (PDict sd) "discountPrice" = Ok dp ->
  normalize_tags (opt_or (sget mt "tags") (PList [])) = Ok tg ->
  sget sd "namespace" = Some ns ->
  sget sd "id" = Some oid ->
  from_json api_data (PDict sd) =
    Ok (mkShopGame (opt_or (sget sd "title") (PStr "Fail")) im lk PNone
          (opt_or (sget rq "languages") (PStr "Failed")) rs
          (opt_or (sget mt "publisher") (PStr "")) dev op dp tg ns oid).
Proof.
  intros Hsel Himgs Him Hdata Hsocial Hlk Hrq Hrs Hmt Hdev Hop Hdp Htg Hns Hid.
  unfold from_json.
  destruct (select_home api_data) as [page0|e]; [|discriminate Hsel].
  cbn [bind] in Hsel |- *. rewrite Hsel.
  unfold parse_reqs, meta_get.
  cbn [bind get_or subscript].
  rewrite Himgs. cbn [bind]. rewrite Him. cbn [bind].
  rewrite Hdata. cbn [bind subscript get_or].
  rewrite Hsocial. cbn [bind]. rewrite Hlk. cbn [bind].
  rewrite Hrq. cbn [bind subscript get_or].
  rewrite Hrs. cbn [bind].
  rewrite Hmt. cbn [bind subscript get_or].
  rewrite Hdev. cbn [bind]. rewrite Hop, Hdp. cbn [bind].
  rewrite Htg. cbn [bind]. rewrite Hns, Hid. reflexivity.
Qed.

(** A parse that succeeded, taken apart *)
Lemma from_json_parts (api_data search_data : pyval) (g : ShopGame) :
  from_json api_data search_data = Ok g ->
  exists page sd dd rq mt imgs social,
    (page0 <- select_home api_data ;; select_page page0) = Ok (PDict page) /\
    search_data = PDict sd /\
    sget sd "keyImages" = Some imgs /\
    ImageUrlModel.from_json imgs = Ok (image_urls g) /\
    sget page "data" = Some (PDict dd) /\
    sget dd "socialLinks" = Some social /\
    collect_links social = Ok (links g) /\
    sget dd "requirements" = Some (PDict rq) /\
    parse_systems (opt_or (sget rq "systems") (PList [])) = Ok (reqs g) /\
    sget dd "meta" = Some (PDict mt) /\
    developer_fallback (PDict sd) (opt_or (sget mt "developer") (PStr ""))
      = Ok (developer g) /\
    fmt_price (PDict sd) "originalPrice" = Ok (price g) /\
    fmt_price (PDict sd) "discountPrice" = Ok (discount_price g) /\
    normalize_tags (opt_or (sget mt "tags") (PList [])) = Ok (tags g) /\
    sget sd "namespace" = Some (namespace g) /\
    sget sd "id" = Some (offer_id g) /\
    title g = opt_or (sget sd "title") (PStr "Fail") /\
    languages g = PNone /\
    available_voice_langs g = opt_or (sget rq "languages") (PStr "Failed") /\
    publisher g = opt_or (sget mt "publisher") (PStr "").
Proof.
  unfold from_json. intros H.
  apply bind_Ok in H as (page0 & Hhome & H).
  apply bind_Ok in H as (page1 & Hpage & H).
  apply bind_Ok in H as (t & Ht & H).
  apply get_or_Ok in Ht as (sd & -> & ->).
  apply bind_Ok in H as (imgs & Himgs & H).
  apply subscript_Ok in Himgs as (sd' & [= <-] & Himgs).
  apply bind_Ok in H as (im & Him & H).
  apply bind_Ok in H as (data & Hdata & H).
  apply subscript_Ok in Hdata as (page & -> & Hdata).
  apply bind_Ok in H as (social & Hsocial & H).
  apply subscript_Ok in Hsocial as (dd & -> & Hsocial).
  apply bind_Ok in H as (lk & Hlk & H).
  cbn [subscript] in H. rewrite Hdata in H. cbn [bind subscript] in H.
  destruct (sget dd "requirements") as [rqv|] eqn:Hrq; [|discriminate H].
  cbn [bind] in H.
  apply bind_Ok in H as (langs & Hlangs & H).
  apply get_or_Ok in Hlangs as (rq & -> & ->).
  unfold parse_reqs, meta_get in H. cbn [subscript bind] in H.
  rewrite Hdata in H. cbn [bind subscript] in H. rewrite Hrq in H.
  cbn [bind get_or] in H.
  apply bind_Ok in H as (rs & Hrs & H).
  destruct (sget dd "meta") as [mtv|] eqn:Hmt; [|discriminate H].
  cbn [bind] in H.
  apply bind_Ok in H as (pub & Hpub & H).
  apply get_or_Ok in Hpub as (mt & -> & ->).
  cbn [bind get_or] in H.
  apply bind_Ok in H as (dev & Hdev & H).
  apply bind_Ok in H as (op & Hop & H).
  apply bind_Ok in H as (dp & Hdp & H).
  apply bind_Ok in H as (tg & Htg & H).
  apply bind_Ok in H as (ns & Hns & H).
  apply bind_Ok in H as (oid & Hoid & H).
  injection H as <-.
  cbn [title languages available_voice_langs publisher reqs tags image_urls
       links developer price discount_price namespace offer_id].
  destruct (sget sd "namespace") as [ns'|] eqn:Ens; [|discriminate Hns].
  destruct (sget sd "id") as [oid'|] eqn:Eid; [|discriminate Hoid].
  injection Hns as ->. injection Hoid as ->.
  exists page, sd, dd, rq, mt, imgs, social.
  rewrite Hhome. cbn [bind]. rewrite Hpage.
  repeat split; try assumption; reflexivity.
Qed.

(** C1, as the claim states it, fails: a search document without
    [keyImages] aborts the parse with [KeyError]; so does a system block
    that names its system and has no [details], a search document
    without [customAttributes] when the catalog names no developer, a
    price without [fmtPrice], and an entry without [_title] in a catalog
    list; and the default of a missing [title] is [Fail], not the empty
    string. *)
Lemma from_json_aborts_on_missing_key :
  sget search_doc_no_images "keyImages" = None /\
  from_json (PDict catalog_doc) (PDict search_doc_no_images) = Raise KeyError /\
  from_json (PDict catalog_doc_no_details) (PDict search_doc) = Raise KeyError /\
  from_json (PDict catalog_doc) (PDict search_doc_no_attributes) = Raise KeyError /\
  from_json (PDict catalog_doc) (PDict search_doc_no_fmt_price) = Raise KeyError /\
  from_json catalog_list_untitled (PDict search_doc) = Raise KeyError /\
  (sget search_doc "title" = None /\
   exists g, from_json (PDict catalog_doc) (PDict search_doc) = Ok g /\
             title g = PStr "Fail").
Proof.
  repeat split; try reflexivity.
  eexists. split; reflexivity.
Qed.

(** C1 (amended): [from_json] puts a default only where it reads with
    [.get]: a missing [title] becomes [Fail], [languages] [Failed],
    [systems] and [tags] nothing to loop over, [publisher] the empty
    string, and [developer] the empty string, after which the developer
    is looked for in [customAttributes]; a developer that is there and
    not empty is kept.  A system block without a system type is skipped
    whole, a requirement without title, minimum or recommended is
    skipped alone.  Everything else is read by subscript and needed:
    the parse succeeds exactly when the catalog document has a page to
    parse ([selected_page]: the document itself when it is a dict
    without [pages]) and that page and the search document have the
    keys and the shapes of [required_keys]. *)
Theorem from_json_defaults (api_data search_data : pyval) :
  (forall page sd dd rq mt,
     selected_page api_data (PDict page) ->
     search_data = PDict sd ->
     required_keys page sd dd rq mt ->
     exists g, from_json api_data search_data = Ok g) /\
  (forall g, from_json api_data search_data = Ok g ->
     exists page sd dd rq mt imgs social,
       selected_page api_data (PDict page) /\
       search_data = PDict sd /\
       required_keys page sd dd rq mt /\
       sget sd "keyImages" = Some imgs /\
       ImageUrlModel.from_json imgs = Ok (image_urls g) /\
       sget dd "socialLinks" = Some social /\
       collect_links social = Ok (links g) /\
       parse_systems (opt_or (sget rq "systems") (PList [])) = Ok (reqs g) /\
       normalize_tags (opt_or (sget mt "tags") (PList [])) = Ok (tags g) /\
       title g = opt_or (sget sd "title") (PStr "Fail") /\
       languages g = PNone /\
       available_voice_langs g = opt_or (sget rq "languages") (PStr "Failed") /\
       publisher g = opt_or (sget mt "publisher") (PStr "") /\
       (sget rq "systems" = None -> reqs g = []) /\
       (sget mt "tags" = None -> tags g = []) /\
       (truthy (opt_or (sget mt "developer") (PStr "")) = true ->
        developer g = opt_or (sget mt "developer") (PStr "")) /\
       (truthy (opt_or (sget mt "developer") (PStr "")) = false ->
        exists attrs items,
          sget sd "customAttributes" = Some attrs /\ iter attrs = Ok items /\
          developer g
            = last_developer items (opt_or (sget mt "developer") (PStr ""))) /\
       (exists p tp fp,
          sget sd "price" = Some (PDict p) /\
          sget p "totalPrice" = Some (PDict tp) /\
          sget tp "fmtPrice" = Some (PDict fp) /\
          sget fp "originalPrice" = Some (price g) /\
          sget fp "discountPrice" = Some (discount_price g)) /\
       sget sd "namespace" = Some (namespace g) /\
       sget sd "id" = Some (offer_id g)) /\
  (forall reqs s, sget s "systemType" = None ->
     system_step reqs (PDict s) = Ok reqs) /\
  (forall system st reqs table r,
     subscript system "systemType" = Ok st ->
     getitem reqs st = Ok table ->
     sget r "title" = None \/ sget r "minimum" = None
       \/ sget r "recommended" = None ->
     req_step system reqs (PDict r) = Ok reqs).
Proof.
  split; [|split; [|split]].
  - intros page sd dd rq mt Hsel ->
      ((imgs & Himgs & Hio) & Hdata & (social & Hsocial & Hso) & Hrq & Hsys
       & Hmt & Hdev & (p & tp & fp & Hp & Htp & Hfp & Hop & Hdp) & Htags
       & Hns & Hid).
    apply image_set_ok in Hio as [im Him].
    apply links_ok_iff in Hso as [lk Hlk].
    apply systems_ok_iff in Hsys as [rs Hrs].
    apply tags_ok_iff in Htags as [tg Htg].
    apply has_key_Some in Hop as [op Hop]. apply has_key_Some in Hdp as [dp Hdp].
    apply has_key_Some in Hns as [ns Hns]. apply has_key_Some in Hid as [oid Hid].
    assert (Hd : exists dev,
               developer_fallback (PDict sd) (opt_or (sget mt "developer") (PStr ""))
               = Ok dev).
    { destruct (truthy (opt_or (sget mt "developer") (PStr ""))) eqn:Ht.
      - eexists. exact (proj1 (developer_fallback_ok sd _) Ht).
      - destruct (Hdev eq_refl) as (attrs & Hattrs & Hao).
        unfold all_items in Hao.
        destruct (iter attrs) as [items|e] eqn:Hit; [|discriminate Hao].
        eexists. apply (proj2 (developer_fallback_ok sd _) Ht).
        exists attrs, items. auto. }
    destruct Hd as [dev Hd]. apply select_iff in Hsel.
    eexists.
    apply (from_json_reads api_data page sd dd rq mt imgs social im lk rs dev
             op dp tg ns oid); try assumption.
    + apply fmt_price_ok. now exists p, tp, fp.
    + apply fmt_price_ok. now exists p, tp, fp.
  - intros g Hg.
    destruct (from_json_parts api_data search_data g Hg)
      as (page & sd & dd & rq & mt & imgs & social & Hsel & -> & Himgs & Him
          & Hdata & Hsocial & Hlk & Hrq & Hrs & Hmt & Hdev & Hop & Hdp & Htg
          & Hns & Hid & Htitle & Hlangs & Hvoice & Hpub).
    exists page, sd, dd, rq, mt, imgs, social.
    split; [now apply select_iff|]. split; [reflexivity|].
    assert (Hfall : truthy (opt_or (sget mt "developer") (PStr "")) = false ->
              exists attrs items,
                sget sd "customAttributes" = Some attrs /\ iter attrs = Ok items /\
                forallb attribute_ok items = true /\
                developer g
                  = last_developer items (opt_or (sget mt "developer") (PStr ""))).
    { intros Ht. now apply (proj2 (developer_fallback_ok sd _) Ht). }
    apply fmt_price_ok in Hop as (p & tp & fp & Hp & Htp & Hfp & Hop).
    apply fmt_price_ok in Hdp as (p' & tp' & fp' & Hp' & Htp' & Hfp' & Hdp).
    rewrite Hp in Hp'. injection Hp' as <-.
    rewrite Htp in Htp'. injection Htp' as <-.
    rewrite Hfp in Hfp'. injection Hfp' as <-.
    split.
    { unfold required_keys.
      repeat split; try assumption.
      - exists imgs. split; [exact Himgs|]. apply image_set_ok. eauto.
      - exists social. split; [exact Hsocial|]. apply links_ok_iff. eauto.
      - apply systems_ok_iff. eauto.
      - intros Ht. destruct (Hfall Ht) as (attrs & items & Ha & Hit & Hall & _).
        exists attrs. split; [exact Ha|]. unfold all_items. now rewrite Hit.
      - exists p, tp, fp. repeat split; try assumption;
          apply has_key_Some; eauto.
      - apply tags_ok_iff. eauto.
      - apply has_key_Some. eauto.
      - apply has_key_Some. eauto. }
    repeat split; try assumption.
    + intros Hn. rewrite Hn in Hrs. cbn in Hrs. congruence.
    + intros Hn. rewrite Hn in Htg. cbn in Htg. congruence.
    + intros Ht. rewrite (proj1 (developer_fallback_ok sd _) Ht) in Hdev.
      congruence.
    + intros Ht. destruct (Hfall Ht) as (attrs & items & Ha & Hit & _ & Hd).
      now exists attrs, items.
    + now exists p, tp, fp.
  - exact system_step_skips_untyped.
  - exact req_step_skips_incomplete.
Qed.

Lemma from_json_defaults_witness :
  exists g, from_json (PDict catalog_doc) (PDict search_doc) = Ok g /\
            title g = PStr "Fail" /\ available_voice_langs g = PStr "Failed" /\
            publisher g = PStr "" /\ developer g = PStr "" /\
            reqs g = [] /\ tags g = [].
Proof.
  assert (Hkeys : required_keys catalog_doc search_doc (data_block [] [] []) [] []).
  { unfold required_keys. repeat split; try reflexivity.
    - exists (PList []). split; reflexivity.
    - exists (PDict []). split; reflexivity.
    - intros _. exists (PList []). split; reflexivity.
    - eexists _, _, _. repeat split; reflexivity. }
  destruct (proj1 (from_json_defaults (PDict catalog_doc) (PDict search_doc))
              catalog_doc search_doc (data_block [] [] []) [] []
              eq_refl eq_refl Hkeys) as [g Hg].
  exists g. split; [exact Hg|].
  destruct (proj1 (proj2 (from_json_defaults (PDict catalog_doc)
                            (PDict search_doc))) g Hg)
    as (page & sd & dd & rq & mt & imgs & social & Hsel & Hsd & Hreq & _ & _
        & _ & _ & _ & _ & Ht & _ & Hv & Hp & Hr & Htg & _ & Hd & _).
  change (PDict page = PDict catalog_doc) in Hsel.
  injection Hsel as ->. injection Hsd as <-.
  destruct Hreq as (_ & Hdata & _ & Hrq & _ & Hmt & _).
  injection Hdata as <-. injection Hrq as <-. injection Hmt as <-.
  destruct (Hd eq_refl) as (attrs & items & Ha & Hit & Hdev).
  injection Ha as <-. injection Hit as <-.
  repeat split; auto.
Defined.

End ParseProperties.

Section PayloadProperties.
Import ShopModels.BrowseModel.

Lemma NoDup_by_nodup (l : list string) : nodup string_dec l = l -> NoDup l.
Proof. intros H. rewrite <- H. apply NoDup_nodup. Qed.

(** X11: whatever the query, the parameter set is a proper mapping (no
    key twice) of 13 to 15 keys, [country] and [allowCountries] are both
    the locale in upper case, and [freeGame] and [priceRange] never
    come together. *)
Theorem payload_is_well_formed (e : Env) (q : BrowseModel) :
  NoDup (map fst (__dict__ e q)) /\
  (13 <= List.length (__dict__ e q) <= 15)%nat /\
  sget (__dict__ e q) "country" = Some (PStr (upper (locale q))) /\
  sget (__dict__ e q) "allowCountries" = Some (PStr (upper (locale q))) /\
  sget (__dict__ e q) "locale" = Some (PStr (locale q)) /\
  (sget (__dict__ e q) "freeGame" = None \/
   sget (__dict__ e q) "priceRange" = None).
Proof.
  unfold __dict__.
  destruct (String.eqb (price q) "free");
    [|destruct (startswith (price q) "<price>")];
    destruct (onSale q); cbn [sset dict_set String.eqb Ascii.eqb Bool.eqb];
    (split; [apply NoDup_by_nodup; reflexivity|]);
    (split; [cbn [List.length]; lia|]);
    repeat split; auto.
Qed.

End PayloadProperties.

(* ================================================================== *)
(** * Further properties of the application *)
(* ================================================================== *)

Section TimerProperties.
Import RareApp RareApp.App.
Local Open Scope Z_scope.
Context {W : Type} {E : Externals W}.

(** X12: [re_login] returns normally only with the timer started anew:
    at 3000 ms after a [ConnectionError]; after a login that succeeded,
    at the renewal delay when the new expiry is less than 2147544 s from
    now, and with [OverflowError] when it is further.  Any other
    exception of [core.login()] leaves [re_login] as it came, and an
    expiry that does not parse is a [ValueError].  The interval of a
    timer that was started is between -60 s and 2147483 s. *)
Theorem re_login_outcomes (self : App W) (utcnow : timestamp) :
  let (w, raised) := core_login (world self) in
  match raised with
  | Some ConnectionError => re_login self utcnow = Ok (mkApp w (Some 3000))
  | Some e => re_login self utcnow = Raise e
  | None =>
      match fromisoformat (drop_last (expires_at w)) with
      | Some dt_exp =>
          if Z.abs (dt_exp - utcnow) <? 2147544 * 1000000
          then re_login self utcnow
               = Ok (mkApp w (Some (renewal_delay_ms dt_exp utcnow)))
          else re_login self utcnow = Raise OverflowError
      | None => re_login self utcnow = Raise ValueError
      end
  end /\
  (forall a, re_login self utcnow = Ok a ->
     world a = w /\
     exists ms, timer a = Some ms /\ (1000 | ms) /\ -60000 <= ms <= 2147483000).
Proof.
  destruct (core_login (world self)) as [w raised] eqn:Hlogin.
  assert (Hconn : re_login self utcnow = Ok (mkApp w (Some 3000)) ->
                  forall a, re_login self utcnow = Ok a ->
                  world a = w /\
                  exists ms, timer a = Some ms /\ (1000 | ms) /\
                             -60000 <= ms <= 2147483000).
  { intros -> a [= <-]. cbn. split; [reflexivity|].
    exists 3000. split; [reflexivity|]. split; [now exists 3 | lia]. }
  destruct raised as [e|].
  - destruct e;
      try (split; [unfold re_login; rewrite Hlogin; reflexivity|];
           intros a Ha; unfold re_login in Ha; rewrite Hlogin in Ha;
           discriminate Ha).
    assert (H3 : re_login self utcnow = Ok (mkApp w (Some 3000)))
      by (unfold re_login; rewrite Hlogin; reflexivity).
    split; [exact H3 | exact (Hconn H3)].
  - destruct (fromisoformat (drop_last (expires_at w))) as [dt_exp|] eqn:Hexp.
    + destruct (Z.ltb_spec (Z.abs (dt_exp - utcnow)) (2147544 * 1000000))
        as [Hr|Hr].
      * rewrite (re_login_delay self w utcnow dt_exp Hlogin Hexp Hr).
        split; [reflexivity|]. intros a [= <-]. cbn. split; [reflexivity|].
        exists (renewal_delay_ms dt_exp utcnow). split; [reflexivity|].
        pose proof (int_of_seconds_bounds (Z.abs (dt_exp - utcnow))) as Hb.
        unfold renewal_delay_ms.
        split; [exists (int_of_seconds (Z.abs (dt_exp - utcnow) - 60 * 1000000));
                reflexivity | lia].
      * rewrite (re_login_overflow self w utcnow dt_exp Hlogin Hexp Hr).
        split; [reflexivity | discriminate].
    + assert (Hv : re_login self utcnow = Raise ValueError)
        by (unfold re_login, parse_iso; rewrite Hlogin, Hexp; reflexivity).
      rewrite Hv. split; [reflexivity | discriminate].
Qed.

(** X13: when the expiry is less than 2147544 s from now, the interval
    [__init__] starts the timer with is a whole number of seconds
    between -60 s and 2147483 s, negative exactly when the expiry is no
    more than 59 s away and positive exactly when it is at least 61 s
    away; from 2147544 s on [__init__] ends in [OverflowError].  Either
    way the outcome is the same whether the expiry is ahead or behind by
    the same distance. *)
Theorem init_timer_bounds (w : W) (utcnow dt_exp : timestamp) :
  fromisoformat (drop_last (expires_at w)) = Some dt_exp ->
  (Z.abs (dt_exp - utcnow) < 2147544 * 1000000 ->
   exists ms,
     __init__ w utcnow = Ok (mkApp w (Some ms)) /\
     (1000 | ms) /\
     -60000 <= ms <= 2147483000 /\
     (ms < 0 <-> Z.abs (dt_exp - utcnow) <= 59 * 1000000) /\
     (0 < ms <-> 61 * 1000000 <= Z.abs (dt_exp - utcnow))) /\
  (2147544 * 1000000 <= Z.abs (dt_exp - utcnow) ->
   __init__ w utcnow = Raise OverflowError) /\
  __init__ w (dt_exp + (dt_exp - utcnow)) = __init__ w utcnow.
Proof.
  intros Hexp. split; [|split].
  - intros Hr. exists (renewal_delay_ms dt_exp utcnow).
    split; [now apply init_delay|].
    unfold renewal_delay_ms, int_of_seconds.
    pose proof (Z.abs_nonneg (dt_exp - utcnow)) as Habs.
    set (td := Z.abs (dt_exp - utcnow)) in *.
    pose proof (Z.quot_rem' (td - 60 * 1000000) 1000000) as Hqr.
    assert (Hpos : 0 <= td - 60 * 1000000 ->
                   0 <= Z.rem (td - 60 * 1000000) 1000000 < 1000000)
      by (intros H; apply Z.rem_bound_pos; lia).
    assert (Hneg : td - 60 * 1000000 < 0 ->
                   -1000000 < Z.rem (td - 60 * 1000000) 1000000 <= 0)
      by (intros H;
          pose proof (Z.rem_bound_pos_neg (td - 60 * 1000000) 1000000); lia).
    set (qt := Z.quot (td - 60 * 1000000) 1000000) in *.
    set (r := Z.rem (td - 60 * 1000000) 1000000) in *.
    split; [exists qt; reflexivity|].
    repeat split; lia.
  - now apply init_overflow.
  - unfold __init__, parse_iso. rewrite Hexp. cbn [bind].
    replace (dt_exp - (dt_exp + (dt_exp - utcnow))) with (- (dt_exp - utcnow))
      by lia.
    now rewrite Z.abs_opp.
Qed.

End TimerProperties.

Section TimerSamples.
Import RareApp RareApp.App Samples Sim.
Local Open Scope Z_scope.

Lemma init_timer_bounds_witness :
  (exists ms,
     __init__ short_session 70000000 = Ok (mkApp short_session (Some ms)) /\
     (1000 | ms) /\
     -60000 <= ms <= 2147483000 /\
     (ms < 0 <-> Z.abs (100000000 - 70000000) <= 59 * 1000000) /\
     (0 < ms <-> 61 * 1000000 <= Z.abs (100000000 - 70000000))) /\
  __init__ short_session (100000000 + (100000000 - 70000000))
    = __init__ short_session 70000000.
Proof.
  split.
  - exact (proj1 (init_timer_bounds short_session 70000000 100000000 eq_refl)
                 eq_refl).
  - exact (proj2 (proj2 (init_timer_bounds short_session 70000000 100000000
                           eq_refl))).
Defined.

End TimerSamples.

Section SweepInvariants.
Import RareApp RareApp.App Traces.
Context {W : Type} {E : Externals W}.

Lemma str_map_avoids (f : ascii -> ascii) (c : ascii) (s : string) :
  (forall a, Ascii.eqb (f a) c = false) ->
  Shapes.no_char c (str_map f s) = true.
Proof.
  intros Hf. induction s as [|a s IH]; cbn [str_map Shapes.no_char];
    [reflexivity|]. now rewrite Hf, IH.
Qed.

Lemma lstrip_char_keeps_no_char (c x : ascii) (s : string) :
  Shapes.no_char x s = true -> Shapes.no_char x (lstrip_char c s) = true.
Proof.
  induction s as [|a s IH]; [reflexivity|]. cbn [lstrip_char].
  destruct (Ascii.eqb a c); [|trivial].
  cbn [Shapes.no_char]. intros H. apply andb_prop in H as [_ H]. now apply IH.
Qed.

Lemma check_igame_cases (igame : InstalledGame) (w : W) :
  check_igame igame w
    = (igame, uninstall_game w (app_name igame) true, uninstalled_calls igame) \/
  check_igame igame w
    = (set_needs_verification igame true,
       set_installed_game w (app_name igame) (set_needs_verification igame true),
       flagged_calls w igame) \/
  check_igame igame w = (igame, w, lookup_calls w igame).
Proof.
  destruct (path_exists w (install_path igame)) eqn:Hp.
  - destruct (path_exists w (executable_path w igame)) eqn:Hx.
    + right; right. now apply check_igame_present.
    + right; left. now apply check_igame_missing_executable.
  - left. now apply check_igame_missing_path.
Qed.

Lemma same_game_refl (g : InstalledGame) : same_game g g.
Proof. repeat split; auto. Qed.

Lemma same_game_flagged (g : InstalledGame) :
  same_game g (set_needs_verification g true).
Proof. repeat split; auto. Qed.

Lemma sweep_same_games (igames : list InstalledGame) (w : W) :
  Forall2 same_game igames (fst (fst (sweep igames w))).
Proof.
  revert w. induction igames as [|g igames IH]; intros w.
  - constructor.
  - rewrite sweep_cons.
    destruct (check_igame_cases g w) as [Hc|[Hc|Hc]]; rewrite Hc;
      match goal with |- context [sweep igames ?w1] =>
        specialize (IH w1); destruct (sweep igames w1) as [[rest w2] t2]
      end; cbn [fst] in *; constructor; auto using same_game_refl, same_game_flagged.
Qed.

Lemma safe_calls_app (t1 t2 : list call) :
  Forall safe_call t1 -> Forall safe_call t2 -> Forall safe_call (t1 ++ t2).
Proof. intros H1 H2. apply Forall_app. now split. Qed.

Lemma sweep_safe_calls (igames : list InstalledGame) (w : W) :
  Forall safe_call (snd (sweep igames w)).
Proof.
  revert w. induction igames as [|g igames IH]; intros w.
  - constructor.
  - rewrite sweep_cons.
    destruct (check_igame_cases g w) as [Hc|[Hc|Hc]]; rewrite Hc;
      match goal with |- context [sweep igames ?w1] =>
        specialize (IH w1); destruct (sweep igames w1) as [[rest w2] t2]
      end; cbn [snd] in *; apply safe_calls_app; try exact IH;
      repeat constructor.
Qed.

(** X14: the sweep returns as many records as the library holds, in the
    same order, each with the name, title, install path and executable
    it had; the only change it makes to a record is to raise
    [needs_verification], and a flag that was set stays set. *)
Theorem start_app_only_raises_flags (w : W) :
  Forall2 same_game (get_installed_list w) (fst (fst (start_app w))).
Proof. apply sweep_same_games. Qed.

(** X15: whatever the library and the state of the disk, the sweep
    never calls [uninstall_game] with [keep_files] false, and every
    record it hands to [set_installed_game] has [needs_verification]
    set and is stored under its own [app_name]. *)
Theorem start_app_calls_are_safe (w : W) :
  Forall safe_call (snd (start_app w)).
Proof. apply sweep_safe_calls. Qed.

Lemma sweep_all_present (igames : list InstalledGame) (w : W) :
  Forall (fun g => path_exists w (install_path g) = true /\
                   path_exists w (executable_path w g) = true) igames ->
  sweep igames w = (igames, w, flat_map (lookup_calls w) igames).
Proof.
  induction igames as [|g igames IH]; intros Hall; [reflexivity|].
  inversion Hall as [|? ? [Hp Hx] Hrest]; subst.
  rewrite sweep_cons, (check_igame_present w g Hp Hx), (IH Hrest).
  reflexivity.
Qed.

(** X16: over a library in which every install path and every
    executable exists, the sweep changes nothing: it returns the
    records as they were, leaves the world as it found it, and makes
    only its three lookups for each record. *)
Theorem start_app_keeps_healthy_library (w : W) :
  Forall (fun g => path_exists w (install_path g) = true /\
                   path_exists w (executable_path w g) = true)
         (get_installed_list w) ->
  start_app w
  = (get_installed_list w, w, flat_map (lookup_calls w) (get_installed_list w)).
Proof. apply sweep_all_present. Qed.

(** X17: on every system the executable the sweep joins to the install
    path holds no backslash and does not begin with a slash; where
    [os.path] is [posixpath] the path it checks therefore always begins
    with the install path of the record: a leading slash of the
    executable or of the override is dropped, not followed. *)
Theorem executable_path_under_install_path (w : W) (igame : InstalledGame) :
  (forall exe,
     startswith (normalize_exe exe) "/" = false /\
     Shapes.no_char (ascii_of_nat 92) (normalize_exe exe) = true) /\
  executable_path w igame
    = path_join (install_path igame)
                (normalize_exe (effective_executable w igame)) /\
  String.prefix (install_path igame)
    (path_join (install_path igame)
               (normalize_exe (effective_executable w igame))) = true.
Proof.
  split; [|split; [reflexivity|]].
  - intros exe. split; [apply normalize_exe_relative|].
    unfold normalize_exe, backslash.
    rewrite (replace_char (ascii_of_nat 92) "/").
    apply lstrip_char_keeps_no_char.
    apply str_map_avoids. intros a.
    destruct (Ascii.eqb_spec a (ascii_of_nat 92)) as [->|Hne]; [reflexivity|].
    now apply Ascii.eqb_neq.
  - unfold path_join. rewrite normalize_exe_relative.
    destruct (String.eqb (install_path igame) ""
              || ends_with_char "/" (install_path igame));
      apply prefix_app.
Qed.

End SweepInvariants.

Section SweepInvariantSamples.
Import RareApp RareApp.App Samples Sim.

Lemma start_app_keeps_healthy_library_witness :
  start_app (library_of [game_c])
  = ([game_c], library_of [game_c],
     [ CallExists "/games/c"; CallConfigGet "C" "override_exe";
       CallExists "/games/c/run.sh" ]).
Proof.
  refine (start_app_keeps_healthy_library (library_of [game_c]) _).
  repeat constructor.
Defined.

End SweepInvariantSamples.

Section LoopInvariants.
Import RareApp Traces.

Lemma count_app (p : step -> bool) (a b : list step) :
  count p (a ++ b) = (count p a + count p b)%nat.
Proof. unfold count. now rewrite filter_app, length_app. Qed.

(** X18: in every run of the restart loop each core that was
    initialised is exited and each application that was built is
    deleted before the next one starts: when [start] returns the counts
    are equal, and while an application runs there is exactly one core
    and one application more. *)
Theorem start_balances_init_and_exit (exit_codes : list Z) :
  let (steps, o) := start exit_codes in
  let open := match o with Returned => 0 | AppRunning => 1 end in
  count is_core_init steps = (count is_core_exit steps + open)%nat /\
  count is_app_new steps = (count is_app_del steps + open)%nat /\
  count is_core_init steps = count is_app_new steps.
Proof.
  induction exit_codes as [|c later IH]; cbn [start].
  - repeat split.
  - destruct (negb (c =? restart_code)%Z).
    + repeat split.
    + destruct (start later) as [more o]. destruct o; cbn zeta in *.
      all: rewrite !count_app.
      all: remember (count is_core_init more) as i eqn:Hi; clear Hi.
      all: remember (count is_core_exit more) as x eqn:Hx; clear Hx.
      all: remember (count is_app_new more) as n eqn:Hn; clear Hn.
      all: remember (count is_app_del more) as d eqn:Hd; clear Hd.
      all: cbn; lia.
Qed.

End LoopInvariants.

(* ================================================================== *)
(** * Properties of the fault handler and of the shutdown *)
(* ================================================================== *)

Section ShutdownProperties.
Import Shutdown.
Local Open Scope Z_scope.

(** X19: for an exception the interpreter reports (the third argument
    is a traceback or [None]) the hook never tries to log in, whatever
    the exception is: it prints, logs the traceback, shows it and leaves
    the event loop with status 1. *)
Theorem excepthook_never_logs_in (tb : string) (exc_tb : tb_object)
    (login : login_outcome) :
  exc_tb <> HTTPErrorClass ->
  excepthook tb exc_tb login
  = [ Print "Error"; LogFatal tb; MessageBoxWarning "Error" tb;
      QApplicationExit 1 ].
Proof.
  intros Hne. destruct exc_tb; try reflexivity. now elim Hne.
Qed.

Lemma excepthook_never_logs_in_witness :
  excepthook "HTTPError: 401" TracebackObject (LoginReturns true)
  = [ Print "Error"; LogFatal "HTTPError: 401";
      MessageBoxWarning "Error" "HTTPError: 401"; QApplicationExit 1 ].
Proof.
  refine (excepthook_never_logs_in "HTTPError: 401" TracebackObject
            (LoginReturns true) _).
  discriminate.
Defined.

(** The branch that logs in again is never taken: the one object that
    equals [HTTPError] makes [format_exception] fail before it. *)
Lemma excepthook_login_unreachable (tb : string) (exc_tb : tb_object)
    (login : login_outcome) :
  ~ In CoreLogin (excepthook tb exc_tb login) /\
  excepthook tb HTTPErrorClass login = [Uncaught AttributeError].
Proof.
  split; [|reflexivity].
  destruct exc_tb; cbn; intuition discriminate.
Qed.

(** X20: [exit_app] first waits for the thread pool, then releases the
    timer and the window it holds; it calls [self.exit] with its
    argument, as the last thing, exactly when neither [rmtree] nor
    [makedirs] raised; and a second call finds nothing to release: it
    stops no timer and closes no window. *)
Theorem exit_app_releases_once (self : handles) (d d' : disk) (code code' : Z) :
  let (self1, done1) := exit_app self d code in
  let (self2, done2) := exit_app self1 d' code' in
  hd ClearSignals done1 = WaitForDone /\
  filter is_release done1
    = ((if has_timer self then [TimerStop; TimerDeleteLater] else [])
       ++ (if has_mainwindow self then [MainWindowClose] else []))%list /\
  filter is_exit done1
    = (if rmtree_raises d || makedirs_raises d then [] else [AppExit code]) /\
  last done1 WaitForDone
    = (if rmtree_raises d then Rmtree
       else if makedirs_raises d then Makedirs else AppExit code) /\
  filter is_release done2 = [] /\
  self2 = self1.
Proof.
  destruct self as [[] []], d as [[] []], d' as [[] []]; cbn;
    repeat split; reflexivity.
Qed.

End ShutdownProperties.
